(** * A drawing pad and its centred 2D Fourier spectrum

    Shallow embedding of [src/fft_drawing_app.py]: the class
    [FourierDrawingApp] keeps an 8-bit grey-level backing image (a Pillow
    image of mode "L") that mirrors a Tk canvas, and [compute_fft] turns that
    image into a normalised array and the log-magnitude of its centred
    2D discrete Fourier transform.

    Conventions of the embedding.
    - A two-dimensional array is a list of rows.  A sample of the backing
      image is a [Z] (an unsigned byte: valid when in 0..255).
    - NumPy's [float64] and [complex128] arithmetic is idealised by the real
      numbers [R] and by pairs of reals: rounding is not modelled.  The
      normalisation of one sample is also written in binary64
      ([normalise_f64]) and checked on all 256 byte values.
    - The NumPy routines the program calls ([asarray], [/], [-],
      [fft.fft2], [fft.fftshift], [abs], [log1p]) are written out after
      NumPy's own Python code and documented contracts: [fft2] transforms
      the last axis and then the first, each one-dimensional transform
      being [A_k = sum_m a_m exp(-2 pi i m k / n)]; [fftshift] is [roll]
      by [dim // 2] along every axis, and [roll] is NumPy's slice copy.
      [np.fft.fft] raises [ValueError] on an axis of length zero: the
      routines that can raise return a [result] ([np_fft], [np_fft2],
      [compute_run]), and [fft], [fft2] and [compute] give the values
      computed when nothing is raised.
    - Pillow's line rasteriser is outside the program: the backing image is
      kept as the history of the requests made to Pillow, and its samples
      are read through a rasteriser taken as a parameter.  What a theorem
      needs of Pillow is a hypothesis on that parameter ([keeps_shape],
      [point_for_empty_segment]). *)

From Stdlib Require Import String.
From Stdlib Require Import Reals List ZArith Arith Lia Lra.
From Stdlib Require PrimFloat Uint63.
Import ListNotations.

Local Open Scope R_scope.

(** ** Complex numbers (NumPy's [complex128], idealised) *)

Record C : Type := mkC { Re : R; Im : R }.

Definition Czero : C := mkC 0 0.
Definition Cone : C := mkC 1 0.

(** [astype(complex)] on one sample. *)
Definition RtoC (x : R) : C := mkC x 0.

Definition Cadd (z w : C) : C := mkC (Re z + Re w) (Im z + Im w).

Definition Cmul (z w : C) : C :=
  mkC (Re z * Re w - Im z * Im w) (Re z * Im w + Im z * Re w).

Definition Cscale (k : R) (z : C) : C := mkC (k * Re z) (k * Im z).

(** [abs] of a complex sample. *)
Definition Cmod (z : C) : R := sqrt (Re z * Re z + Im z * Im z).

(** [exp(i t)]. *)
Definition Cexp (t : R) : C := mkC (cos t) (sin t).

Definition Csum (l : list C) : C := fold_right Cadd Czero l.

Definition Rsum (l : list R) : R := fold_right Rplus 0 l.

(** ** Arrays *)

Definition array2 (A : Type) : Type := list (list A).

(** [a.shape[1]] of a list of rows. *)
Definition ncols {A} (a : array2 A) : nat :=
  match a with
  | [] => 0%nat
  | row :: _ => length row
  end.

(** [a] has [H] rows, each of [W] samples. *)
Definition shape {A} (a : array2 A) (H W : nat) : Prop :=
  length a = H /\ Forall (fun row => length row = W) a.

(** [a[r, c]], with [d] outside the array. *)
Definition get {A} (d : A) (a : array2 A) (r c : nat) : A :=
  nth c (nth r a []) d.

(** [a[r, c]] for indices that are not negative; [None] where NumPy raises
    [IndexError]. *)
Definition lookup2 {A} (a : array2 A) (r c : nat) : option A :=
  match nth_error a r with
  | Some row => nth_error row c
  | None => None
  end.

Definition map2d {A B} (f : A -> B) (a : array2 A) : array2 B :=
  map (map f) a.

(** [np.sum(a)]. *)
Definition sum2d (a : array2 R) : R := Rsum (map Rsum a).

(** [k * a]. *)
Definition scale2d (k : R) (a : array2 R) : array2 R := map2d (Rmult k) a.

(** ** NumPy routines used by [compute_fft] *)

(** [np.asarray(image, dtype=float)] on the samples of the image. *)
Definition asarray_float (img : array2 Z) : array2 R := map2d IZR img.

(** [array / 255.0]. *)
Definition true_divide (a : array2 R) (k : R) : array2 R :=
  map2d (fun x => x / k) a.

(** [1.0 - array]. *)
Definition rsubtract (k : R) (a : array2 R) : array2 R :=
  map2d (fun x => k - x) a.

(** [np.roll] along one axis, for a shift that is not negative:
    [offset %= n or 1]; when [offset] is not zero,
    [result[offset:] = a[:-offset]] and [result[:offset] = a[-offset:]]. *)
Definition roll {A} (a : list A) (shift : nat) : list A :=
  let n := length a in
  let offset := (shift mod (if (n =? 0)%nat then 1 else n))%nat in
  if (offset =? 0)%nat then a
  else skipn (n - offset) a ++ firstn (n - offset) a.

(** [np.fft.fftshift(x)] with [axes=None]:
    [shift = [dim // 2 for dim in x.shape]], then [roll] on every axis. *)
Definition fftshift {A} (a : array2 A) : array2 A :=
  let H := length a in
  let W := ncols a in
  map (fun row => roll row (W / 2)) (roll a (H / 2)).

(** [exp(-2 pi i m k / n)]. *)
Definition twiddle (n k m : nat) : C :=
  Cexp (- (2 * PI * (INR m * INR k / INR n))).

(** What [np.fft.fft] returns for one vector:
    [A_k = sum_m a_m exp(-2 pi i m k / n)].  On an empty vector
    [np.fft.fft] raises instead: see [np_fft]. *)
Definition fft (a : list C) : list C :=
  let n := length a in
  map (fun k =>
         Csum (map (fun m => Cmul (nth m a Czero) (twiddle n k m)) (seq 0 n)))
      (seq 0 n).

(** [np.swapaxes(a, 0, 1)] of an array with [W] columns. *)
Definition swapaxes {A} (d : A) (W : nat) (a : array2 A) : array2 A :=
  map (fun c => map (fun row => nth c row d) a) (seq 0 W).

(** What [fft(a, axis=-1)] returns: every row is transformed. *)
Definition fft_axis1 (a : array2 C) : array2 C := map fft a.

(** What [fft(a, axis=-2)] returns: the axis is swapped to the end,
    transformed, and swapped back. *)
Definition fft_axis0 (a : array2 C) : array2 C :=
  let H := length a in
  let W := ncols a in
  swapaxes Czero H (fft_axis1 (swapaxes Czero W a)).

(** What [np.fft.fft2(a)] returns: the axes [(-2, -1)] are transformed
    last one first.  With an axis of length zero it raises: see
    [np_fft2]. *)
Definition fft2 (a : array2 R) : array2 C :=
  fft_axis0 (fft_axis1 (map2d RtoC a)).

(** A value, or the [ValueError] that [np.fft.fft] raises. *)
Inductive result (A : Type) : Type :=
| Ok (x : A)
| ValueError.

Arguments Ok {A} x.
Arguments ValueError {A}.

Definition bind {A B} (m : result A) (f : A -> result B) : result B :=
  match m with
  | Ok x => f x
  | ValueError => ValueError
  end.

(** [np.fft.fft] of one vector: [n = a.shape[axis]];
    [if n < 1: raise ValueError("Invalid number of FFT data points")]. *)
Definition np_fft (a : list C) : result (list C) :=
  if (length a <? 1)%nat then ValueError else Ok (fft a).

(** [fft(a, axis=-1)] of an array: the length of the axis is the number of
    columns.  (A list of no rows stands for every shape [(0, W)]; NumPy
    raises for each of them, on this axis or on the next.) *)
Definition np_fft_axis1 (a : array2 C) : result (array2 C) :=
  if (ncols a <? 1)%nat then ValueError else Ok (fft_axis1 a).

(** [fft(a, axis=-2)] of an array: the length of the axis is the number of
    rows. *)
Definition np_fft_axis0 (a : array2 C) : result (array2 C) :=
  if (length a <? 1)%nat then ValueError else Ok (fft_axis0 a).

(** [np.fft.fft2(a)]: [fft] along axis [-1], then along axis [-2]; a
    [ValueError] of either is the outcome. *)
Definition np_fft2 (a : array2 R) : result (array2 C) :=
  bind (np_fft_axis1 (map2d RtoC a)) np_fft_axis0.

(** [np.abs] of a complex array. *)
Definition np_abs (a : array2 C) : array2 R := map2d Cmod a.

(** [np.log1p]. *)
Definition log1p (x : R) : R := ln (1 + x).

Definition np_log1p (a : array2 R) : array2 R := map2d log1p a.

(** ** [compute_fft] *)

(** The local variables of [compute_fft]; [cf_array] and
    [cf_log_magnitude] are the two images it shows. *)
Record fft_locals : Type := mkLocals {
  cf_array : array2 R;
  cf_spectrum : array2 C;
  cf_magnitude : array2 R;
  cf_log_magnitude : array2 R
}.

(** The values the locals of [compute_fft] take on a raster, lines 93 to
    97, when [np.fft.fft2] returns.  [cf_array] is assigned before the
    transform is called, on every raster; whether the others are assigned
    is told by [compute_run]. *)
Definition compute (raster : array2 Z) : fft_locals :=
  let array := true_divide (asarray_float raster) 255 in
  let array := rsubtract 1 array in
  let spectrum := fftshift (fft2 array) in
  let magnitude := np_abs spectrum in
  let log_magnitude := np_log1p magnitude in
  mkLocals array spectrum magnitude log_magnitude.

(** [compute_fft] on a raster, lines 93 to 97, with the [ValueError] that
    [np.fft.fft2] raises on an axis of length zero: the locals when it
    returns, the error when it raises. *)
Definition compute_run (raster : array2 Z) : result fft_locals :=
  let array := true_divide (asarray_float raster) 255 in
  let array := rsubtract 1 array in
  bind (np_fft2 array) (fun transform =>
    let spectrum := fftshift transform in
    let magnitude := np_abs spectrum in
    let log_magnitude := np_log1p magnitude in
    Ok (mkLocals array spectrum magnitude log_magnitude)).

(** The transform of the specification, written after its words:
    [F[u,v] = sum_r sum_c a[r,c] * exp(-2 pi i (u r / H + v c / W))]. *)
Definition dft2_reference (a : array2 R) (u v : nat) : C :=
  let H := length a in
  let W := ncols a in
  Csum (map (fun r =>
    Csum (map (fun c =>
      Cmul (RtoC (get 0 a r c))
           (Cexp (- (2 * PI * (INR u * INR r / INR H
                               + INR v * INR c / INR W)))))
      (seq 0 W)))
    (seq 0 H)).

(** A raster is valid when every sample is an unsigned byte. *)
Definition valid_raster (raster : array2 Z) : Prop :=
  Forall (Forall (fun v => (0 <= v <= 255)%Z)) raster.

(** ** Normalisation of one sample in binary64 *)

(** The conversion of an integer sample to [float64]. *)
Definition f64_of_Z (z : Z) : PrimFloat.float :=
  PrimFloat.of_uint63 (Uint63.of_Z z).

(** [1.0 - v / 255.0], as the floating-point unit computes it. *)
Definition normalise_f64 (v : Z) : PrimFloat.float :=
  PrimFloat.sub (f64_of_Z 1) (PrimFloat.div (f64_of_Z v) (f64_of_Z 255)).

Definition in_unit_f64 (x : PrimFloat.float) : bool :=
  PrimFloat.leb (f64_of_Z 0) x && PrimFloat.leb x (f64_of_Z 1).

(** ** The stroke buffer *)

Definition point : Type := (Z * Z)%type.

(** The backing image, as the requests made to Pillow:
    [Image.new("L", (w, h), color)] and
    [ImageDraw.Draw(image).line(xy, fill, width)]. *)
Inductive pil_image : Type :=
| Image_new (w h : nat) (color : Z)
| Draw_line (im : pil_image) (xy : list point) (fill width : Z).

(** An item of the Tk canvas, made by [create_line]. *)
Record canvas_line : Type := mkCanvasLine {
  cl_from : point;
  cl_to : point;
  cl_fill : string;
  cl_width : Z
}.

(** A pointer event: [event.x], [event.y]. *)
Record event : Type := mkEvent { ev_x : Z; ev_y : Z }.

(** The fields of [FourierDrawingApp] that the handlers read and write. *)
Record app : Type := mkApp {
  size : nat;
  canvas : list canvas_line;
  image : pil_image;
  last_pos : option point
}.

(** A method: its return value and the object afterwards. *)
Definition method (A : Type) : Type := app -> A * app.

Definition _create_drawing_buffer : method unit := fun self =>
  (tt, mkApp (size self) (canvas self)
             (Image_new (size self) (size self) 255) None).

(** [__init__], without the widgets. *)
Definition init (n : nat) : app :=
  snd (_create_drawing_buffer (mkApp n [] (Image_new 0 0 255) None)).

Definition _start_draw (ev : event) : method unit := fun self =>
  (tt, mkApp (size self) (canvas self) (image self)
             (Some (ev_x ev, ev_y ev))).

Definition _draw (ev : event) : method unit := fun self =>
  match last_pos self with
  | None =>
      (tt, mkApp (size self) (canvas self) (image self)
                 (Some (ev_x ev, ev_y ev)))
  | Some last =>
      let current_pos := (ev_x ev, ev_y ev) in
      (tt, mkApp (size self)
                 (canvas self ++ [mkCanvasLine last current_pos "black"%string 4])
                 (Draw_line (image self) [last; current_pos] 0 4)
                 (Some current_pos))
  end.

Definition _end_draw (ev : event) : method unit := fun self =>
  (tt, mkApp (size self) (canvas self) (image self) None).

Definition clear : method unit := fun self =>
  _create_drawing_buffer
    (mkApp (size self) [] (image self) (last_pos self)).

(** The pointer bindings of [_bind_drawing]. *)
Inductive pointer : Type :=
| ButtonPress (ev : event)
| Motion (ev : event)
| ButtonRelease (ev : event).

Definition handle (p : pointer) : method unit :=
  match p with
  | ButtonPress ev => _start_draw ev
  | Motion ev => _draw ev
  | ButtonRelease ev => _end_draw ev
  end.

Fixpoint handle_all (ps : list pointer) (self : app) : app :=
  match ps with
  | [] => self
  | p :: ps' => handle_all ps' (snd (handle p self))
  end.

(** The line requests made to Pillow since the image was created. *)
Fixpoint line_requests (im : pil_image) : list (list point * Z * Z) :=
  match im with
  | Image_new _ _ _ => []
  | Draw_line im' xy fill width => line_requests im' ++ [(xy, fill, width)]
  end.

(** A line request with the pen of [_draw]: fill 0 and width 4. *)
Definition pen_request (req : list point * Z * Z) : Prop :=
  snd (fst req) = 0%Z /\ snd req = 4%Z.

Section Raster.

(** Pillow's rasteriser of one line request on a grid of samples. *)
Variable rasterise : array2 Z -> list point -> Z -> Z -> array2 Z.

(** [np.asarray(image)]: [h] rows of [w] samples. *)
Fixpoint samples (im : pil_image) : array2 Z :=
  match im with
  | Image_new w h color => repeat (repeat color w) h
  | Draw_line im' xy fill width => rasterise (samples im') xy fill width
  end.

(** The locals of [compute_fft] on the backing image of the application,
    when [np.fft.fft2] returns. *)
Definition compute_fft (self : app) : fft_locals :=
  compute (samples (image self)).

(** [compute_fft] on the backing image of the application, with the
    [ValueError] of an image of size zero. *)
Definition compute_fft_run (self : app) : result fft_locals :=
  compute_run (samples (image self)).

End Raster.

(** ** What the program needs of Pillow's rasteriser *)

(** [l[n] = x], nothing when [n] is outside the list. *)
Fixpoint set_nth {A} (n : nat) (x : A) (l : list A) : list A :=
  match l, n with
  | [], _ => []
  | _ :: l', O => x :: l'
  | y :: l', S n' => y :: set_nth n' x l'
  end.

(** Pillow's [point8]: [im->image8[y][x] = ink] when
    [0 <= x < xsize] and [0 <= y < ysize], nothing otherwise. *)
Definition put_pixel (a : array2 Z) (p : point) (ink : Z) : array2 Z :=
  let x := fst p in
  let y := snd p in
  if ((0 <=? x)%Z && (x <? Z.of_nat (ncols a))%Z
      && (0 <=? y)%Z && (y <? Z.of_nat (length a))%Z)%bool
  then set_nth (Z.to_nat y) (set_nth (Z.to_nat x) ink (nth (Z.to_nat y) a []))
               a
  else a.

(** Pillow draws in place: a request of the pen (fill 0, width 4) keeps the
    dimensions of the image. *)
Definition keeps_shape
           (rasterise : array2 Z -> list point -> Z -> Z -> array2 Z) : Prop :=
  forall (a : array2 Z) (xy : list point) (H W : nat),
    shape a H W -> shape (rasterise a xy 0%Z 4%Z) H W.

(** Pillow's [ImagingDrawWideLine]: a segment of length zero
    ([dx == 0 && dy == 0]) is drawn as its single point. *)
Definition point_for_empty_segment
           (rasterise : array2 Z -> list point -> Z -> Z -> array2 Z) : Prop :=
  forall (a : array2 Z) (p : point),
    rasterise a [p; p] 0%Z 4%Z = put_pixel a p 0%Z.

(** A rasteriser that paints the first point of a request. *)
Definition paint_first_point (a : array2 Z) (xy : list point) (fill width : Z)
  : array2 Z :=
  match xy with
  | [] => a
  | p :: _ => put_pixel a p fill
  end.

(** ** The whole application *)

(** What the user can do: the pointer bindings and the buttons
    "Clear Canvas" and "Compute FFT" of [_create_controls]. *)
Inductive command : Type :=
| Pointer (p : pointer)
| ClearCanvas
| ComputeFFT.

(** One command on the application; [compute_fft] reads the backing image
    and opens a figure, it assigns no field. *)
Definition step (c : command) (self : app) : app :=
  match c with
  | Pointer p => snd (handle p self)
  | ClearCanvas => snd (clear self)
  | ComputeFFT => self
  end.

Fixpoint run_commands (cs : list command) (self : app) : app :=
  match cs with
  | [] => self
  | c :: cs' => run_commands cs' (step c self)
  end.

(** [main]: the application is created with [size=256]. *)
Definition main_app : app := init 256.

(** The pointer event at a point. *)
Definition event_at (p : point) : event := mkEvent (fst p) (snd p).

(** The pen requests that join [p] and the points of [ps] in order. *)
Fixpoint segments (p : point) (ps : list point)
  : list (list point * Z * Z) :=
  match ps with
  | [] => []
  | q :: ps' => ([p; q], 0%Z, 4%Z) :: segments q ps'
  end.

(** A canvas item and the line request that draws the same segment. *)
Definition mirrors (cl : canvas_line) (req : list point * Z * Z) : Prop :=
  req = ([cl_from cl; cl_to cl], 0%Z, cl_width cl) /\
  cl_fill cl = "black"%string.

(** The number of [Motion] events of a list. *)
Fixpoint motions (ps : list pointer) : nat :=
  match ps with
  | [] => 0
  | Motion _ :: ps' => S (motions ps')
  | _ :: ps' => motions ps'
  end.

(** An image of [n] x [n] samples, created white and drawn with the pen
    only. *)
Fixpoint pen_image (n : nat) (im : pil_image) : Prop :=
  match im with
  | Image_new w h color => w = n /\ h = n /\ color = 255%Z
  | Draw_line im' xy fill width =>
      fill = 0%Z /\ width = 4%Z /\ pen_image n im'
  end.

(** The number of ink samples (intensity 0) of a raster. *)
Definition ink_count (raster : array2 Z) : nat :=
  list_sum (map (fun row => length (filter (Z.eqb 0) row)) raster).

(** A raster of ink and blank samples only. *)
Definition two_level (raster : array2 Z) : Prop :=
  Forall (Forall (fun v => v = 0%Z \/ v = 255%Z)) raster.

(** The complex conjugate. *)
Definition Cconj (z : C) : C := mkC (Re z) (- Im z).

(** The index of frequency [-u] among [n]: [(n - u) mod n]. *)
Definition negate_index (n u : nat) : nat := ((n - u) mod n)%nat.

(** The index of frequency [u] after [fftshift]: [(u + n // 2) mod n]. *)
Definition shifted_index (n u : nat) : nat := ((u + n / 2) mod n)%nat.

(** * Properties *)

(** ** Lists and arrays *)

Lemma nth_map_seq {A} (f : nat -> A) (n k : nat) (d : A) :
  (k < n)%nat -> nth k (map f (seq 0 n)) d = f k.
Proof.
  intros Hk.
  rewrite (nth_indep _ d (f 0%nat)) by now rewrite length_map, length_seq.
  now rewrite (map_nth f (seq 0 n) 0%nat k), seq_nth.
Qed.

Lemma map_nth_seq {A} (l : list A) (d : A) :
  map (fun m => nth m l d) (seq 0 (length l)) = l.
Proof.
  apply (nth_ext _ _ d d).
  - now rewrite length_map, length_seq.
  - intros k Hk. rewrite length_map, length_seq in Hk.
    now rewrite nth_map_seq.
Qed.

Lemma shape_ncols {A} (a : array2 A) (H W : nat) :
  shape a H W -> (0 < H)%nat -> ncols a = W.
Proof.
  intros [Hl Hr] HH. destruct a as [|row a]; simpl in *; [lia|].
  now inversion Hr.
Qed.

Lemma shape_row {A} (a : array2 A) (H W r : nat) :
  shape a H W -> (r < H)%nat -> length (nth r a []) = W.
Proof.
  intros [Hl Hr] Hlt. rewrite Forall_nth in Hr. apply Hr. lia.
Qed.

Lemma shape_map2d {A B} (f : A -> B) (a : array2 A) (H W : nat) :
  shape a H W -> shape (map2d f a) H W.
Proof.
  intros [Hl Hr]. split.
  - unfold map2d. now rewrite length_map.
  - unfold map2d. rewrite Forall_map.
    eapply Forall_impl; [|exact Hr]. intros row Hrow. simpl.
    now rewrite length_map.
Qed.

Lemma get_map2d {A B} (f : A -> B) (a : array2 A) (dA : A) (dB : B)
      (r c : nat) :
  (r < length a)%nat -> (c < length (nth r a []))%nat ->
  get dB (map2d f a) r c = f (get dA a r c).
Proof.
  intros Hr Hc. unfold get, map2d.
  change (@nil B) with (map f []). rewrite map_nth.
  rewrite (nth_indep _ dB (f dA)) by now rewrite length_map.
  apply map_nth.
Qed.

(** ** [roll] and [fftshift] *)

Lemma roll_length {A} (a : list A) (s : nat) : length (roll a s) = length a.
Proof.
  unfold roll. destruct (_ =? 0)%nat; [reflexivity|].
  rewrite length_app, length_skipn, length_firstn. lia.
Qed.

Lemma roll_Forall {A} (P : A -> Prop) (a : list A) (s : nat) :
  Forall P a -> Forall P (roll a s).
Proof.
  intros Ha. unfold roll. destruct (_ =? 0)%nat; [exact Ha|].
  set (k := (length a - _)%nat).
  rewrite <- (firstn_skipn k a) in Ha. apply Forall_app in Ha.
  apply Forall_app. tauto.
Qed.

Lemma roll_map {A B} (f : A -> B) (a : list A) (s : nat) :
  roll (map f a) s = map f (roll a s).
Proof.
  unfold roll. rewrite length_map. destruct (_ =? 0)%nat; [reflexivity|].
  now rewrite map_app, skipn_map, firstn_map.
Qed.

(** The sample at index [i] moves to index [(i + s) mod n]. *)
Lemma roll_nth {A} (a : list A) (s i : nat) (d : A) :
  (i < length a)%nat ->
  nth ((i + s) mod length a) (roll a s) d = nth i a d.
Proof.
  intros Hi. unfold roll.
  set (n := length a) in *.
  assert (Hn : (n =? 0)%nat = false) by (apply Nat.eqb_neq; lia).
  rewrite Hn.
  assert (Hoff : (s mod n < n)%nat) by (apply Nat.mod_upper_bound; lia).
  rewrite <- Nat.Div0.add_mod_idemp_r.
  set (off := (s mod n)%nat) in *.
  destruct (off =? 0)%nat eqn:E.
  - apply Nat.eqb_eq in E. rewrite E, Nat.add_0_r, Nat.mod_small by lia.
    reflexivity.
  - apply Nat.eqb_neq in E.
    destruct (Nat.lt_ge_cases (i + off) n) as [Hlt | Hge].
    + rewrite Nat.mod_small by lia.
      rewrite app_nth2 by (rewrite length_skipn; fold n; lia).
      rewrite length_skipn. fold n.
      rewrite nth_firstn.
      replace (i + off - (n - (n - off)))%nat with i by lia.
      assert (Hb : (i <? n - off)%nat = true) by (apply Nat.ltb_lt; lia).
      now rewrite Hb.
    + replace (i + off)%nat with ((i + off - n) + 1 * n)%nat by lia.
      rewrite Nat.Div0.mod_add, Nat.mod_small by lia.
      rewrite app_nth1 by (rewrite length_skipn; fold n; lia).
      rewrite nth_skipn. f_equal. lia.
Qed.

Lemma fftshift_shape {A} (a : array2 A) (H W : nat) :
  shape a H W -> shape (fftshift a) H W.
Proof.
  intros [Hl Hr]. unfold fftshift. split.
  - now rewrite length_map, roll_length.
  - rewrite Forall_map. apply roll_Forall.
    eapply Forall_impl; [|exact Hr]. intros row Hrow. simpl.
    now rewrite roll_length.
Qed.

Lemma fftshift_map2d {A B} (f : A -> B) (a : array2 A) :
  fftshift (map2d f a) = map2d f (fftshift a).
Proof.
  unfold fftshift, map2d. rewrite length_map, roll_map, !map_map.
  replace (ncols (map (map f) a)) with (ncols a)
    by (destruct a; simpl; [reflexivity | now rewrite length_map]).
  apply map_ext. intros row. apply roll_map.
Qed.

(** The sample at [(r, c)] moves to [((r + H/2) mod H, (c + W/2) mod W)]. *)
Lemma fftshift_get {A} (a : array2 A) (H W r c : nat) (d : A) :
  shape a H W -> (r < H)%nat -> (c < W)%nat ->
  get d (fftshift a) ((r + H / 2) mod H) ((c + W / 2) mod W) = get d a r c.
Proof.
  intros Hs Hr Hc. unfold get, fftshift.
  rewrite (shape_ncols a H W Hs) by lia.
  pose proof (shape_row a H W r Hs Hr) as Hlen.
  destruct Hs as [Hl _]. subst H.
  assert (Hnil : roll (@nil A) (W / 2) = []).
  { unfold roll. cbn [length Nat.eqb]. now rewrite Nat.mod_1_r. }
  rewrite <- Hnil at 1.
  rewrite (map_nth (fun row => roll row (W / 2))).
  rewrite roll_nth by lia.
  rewrite <- Hlen. apply roll_nth. lia.
Qed.

(** [np.roll(np.arange(5), 2)] and [np.fft.fftshift] of a 3 x 3 array. *)
Example roll_five : roll [0; 1; 2; 3; 4]%nat 2 = [3; 4; 0; 1; 2]%nat.
Proof. reflexivity. Qed.

Example fftshift_three :
  fftshift [[1; 2; 3]; [4; 5; 6]; [7; 8; 9]]%nat
  = [[9; 7; 8]; [3; 1; 2]; [6; 4; 5]]%nat.
Proof. reflexivity. Qed.

(** ** Complex arithmetic *)

Lemma C_eq (z w : C) : Re z = Re w -> Im z = Im w -> z = w.
Proof. destruct z, w. simpl. intros -> ->. reflexivity. Qed.

Lemma Cmul_1_r (z : C) : Cmul z Cone = z.
Proof. apply C_eq; simpl; ring. Qed.

Lemma Cmul_assoc (x y z : C) : Cmul (Cmul x y) z = Cmul x (Cmul y z).
Proof. apply C_eq; simpl; ring. Qed.

Lemma Cmul_add_distr_r (x y z : C) :
  Cmul (Cadd x y) z = Cadd (Cmul x z) (Cmul y z).
Proof. apply C_eq; simpl; ring. Qed.

Lemma Cmul_RtoC (x : R) (z : C) : Cmul (RtoC x) z = Cscale x z.
Proof. apply C_eq; simpl; ring. Qed.

Lemma Cscale_mul_l (k : R) (z w : C) :
  Cmul (Cscale k z) w = Cscale k (Cmul z w).
Proof. apply C_eq; simpl; ring. Qed.

Lemma Cscale_add (k : R) (z w : C) :
  Cscale k (Cadd z w) = Cadd (Cscale k z) (Cscale k w).
Proof. apply C_eq; simpl; ring. Qed.

Lemma Cexp_0 : Cexp 0 = Cone.
Proof. unfold Cexp. now rewrite cos_0, sin_0. Qed.

Lemma Cexp_add (x y : R) : Cexp (x + y) = Cmul (Cexp x) (Cexp y).
Proof.
  unfold Cexp, Cmul. simpl. rewrite cos_plus, sin_plus.
  f_equal. ring.
Qed.

Lemma Csum_mul_r (l : list C) (z : C) :
  Cmul (Csum l) z = Csum (map (fun x => Cmul x z) l).
Proof.
  induction l as [|x l IH]; simpl.
  - apply C_eq; simpl; ring.
  - now rewrite Cmul_add_distr_r, IH.
Qed.

Lemma Csum_scale (k : R) (l : list C) :
  Csum (map (Cscale k) l) = Cscale k (Csum l).
Proof.
  induction l as [|x l IH]; simpl.
  - apply C_eq; simpl; ring.
  - now rewrite IH, Cscale_add.
Qed.

Lemma Csum_RtoC (l : list R) : Csum (map RtoC l) = RtoC (Rsum l).
Proof.
  induction l as [|x l IH]; simpl.
  - reflexivity.
  - rewrite IH. apply C_eq; simpl; ring.
Qed.

Lemma Csum_ext {A} (f g : A -> C) (l : list A) :
  (forall x, In x l -> f x = g x) -> Csum (map f l) = Csum (map g l).
Proof. intros Hfg. f_equal. now apply map_ext_in. Qed.

Lemma Cmod_nonneg (z : C) : 0 <= Cmod z.
Proof. apply sqrt_pos. Qed.

Lemma Cmod_0 : Cmod Czero = 0.
Proof.
  unfold Cmod. simpl. replace (0 * 0 + 0 * 0) with 0 by ring. apply sqrt_0.
Qed.

Lemma Cmod_RtoC (x : R) : Cmod (RtoC x) = Rabs x.
Proof.
  unfold Cmod. simpl. replace (x * x + 0 * 0) with (Rsqr x)
    by (unfold Rsqr; ring).
  apply sqrt_Rsqr_abs.
Qed.

Lemma Cmod_Cexp (t : R) : Cmod (Cexp t) = 1.
Proof.
  unfold Cmod, Cexp. simpl.
  replace (cos t * cos t + sin t * sin t) with 1
    by (pose proof (sin2_cos2 t) as E; unfold Rsqr in E; lra).
  apply sqrt_1.
Qed.

Lemma Cmod_scale (k : R) (z : C) : Cmod (Cscale k z) = Rabs k * Cmod z.
Proof.
  unfold Cmod. simpl.
  replace (k * Re z * (k * Re z) + k * Im z * (k * Im z))
    with (Rsqr k * (Re z * Re z + Im z * Im z)) by (unfold Rsqr; ring).
  rewrite sqrt_mult_alt by apply Rle_0_sqr.
  now rewrite sqrt_Rsqr_abs.
Qed.

Lemma Cmod_triangle (z w : C) : Cmod (Cadd z w) <= Cmod z + Cmod w.
Proof.
  unfold Cmod. simpl.
  set (a := Re z). set (b := Im z). set (c := Re w). set (d := Im w).
  pose proof (sqrt_pos (a * a + b * b)) as Hp.
  pose proof (sqrt_pos (c * c + d * d)) as Hq.
  assert (Ha : sqrt (a * a + b * b) * sqrt (a * a + b * b) = a * a + b * b)
    by (apply sqrt_sqrt; nra).
  assert (Hb : sqrt (c * c + d * d) * sqrt (c * c + d * d) = c * c + d * d)
    by (apply sqrt_sqrt; nra).
  pose proof (sqrt_cauchy a b c d) as Hc. unfold Rsqr in Hc.
  rewrite <- (sqrt_Rsqr (sqrt (a * a + b * b) + sqrt (c * c + d * d)))
    by lra.
  apply sqrt_le_1_alt. unfold Rsqr. nra.
Qed.

(** ** The transform *)

Lemma fft_length (a : list C) : length (fft a) = length a.
Proof. unfold fft. now rewrite length_map, length_seq. Qed.

Lemma fft_nth (a : list C) (k : nat) :
  (k < length a)%nat ->
  nth k (fft a) Czero =
  Csum (map (fun m => Cmul (nth m a Czero) (twiddle (length a) k m))
            (seq 0 (length a))).
Proof. intros Hk. unfold fft. now rewrite nth_map_seq. Qed.

Lemma fft_axis1_shape (a : array2 C) (H W : nat) :
  shape a H W -> shape (fft_axis1 a) H W.
Proof.
  intros [Hl Hr]. unfold fft_axis1. split.
  - now rewrite length_map.
  - rewrite Forall_map. eapply Forall_impl; [|exact Hr].
    intros row Hrow. simpl. now rewrite fft_length.
Qed.

Lemma swapaxes_shape {A} (d : A) (W : nat) (a : array2 A) :
  shape (swapaxes d W a) W (length a).
Proof.
  unfold swapaxes. split.
  - now rewrite length_map, length_seq.
  - rewrite Forall_map. apply Forall_forall. intros c _.
    now rewrite length_map.
Qed.

Lemma swapaxes_row {A} (d : A) (W c : nat) (a : array2 A) :
  (c < W)%nat ->
  nth c (swapaxes d W a) [] = map (fun row => nth c row d) a.
Proof. intros Hc. unfold swapaxes. now rewrite nth_map_seq. Qed.

Lemma column_nth {A} (d : A) (a : array2 A) (c r : nat) :
  nth r (map (fun row => nth c row d) a) d = get d a r c.
Proof.
  unfold get.
  assert (E : d = (fun row => nth c row d) []) by now destruct c.
  rewrite E at 1. now rewrite (map_nth (fun row => nth c row d)).
Qed.

Lemma fft_axis0_shape (a : array2 C) (H W : nat) :
  shape a H W -> shape (fft_axis0 a) H W.
Proof.
  intros Hs. unfold fft_axis0.
  destruct (Nat.eq_dec H 0) as [-> | HH].
  - destruct Hs as [Hl _]. apply length_zero_iff_nil in Hl. subst a.
    split; [reflexivity | constructor].
  - rewrite (shape_ncols a H W Hs) by lia.
    destruct Hs as [Hl _]. rewrite Hl.
    pose proof (swapaxes_shape Czero H (fft_axis1 (swapaxes Czero W a))) as Hs'.
    assert (E : length (fft_axis1 (swapaxes Czero W a)) = W)
      by (unfold fft_axis1, swapaxes; now rewrite !length_map, length_seq).
    now rewrite E in Hs'.
Qed.

(** Along the first axis, entry [(u, v)] is the transform of column [v]. *)
Lemma fft_axis0_get (a : array2 C) (H W u v : nat) :
  shape a H W -> (u < H)%nat -> (v < W)%nat ->
  get Czero (fft_axis0 a) u v =
  Csum (map (fun r => Cmul (get Czero a r v) (twiddle H u r)) (seq 0 H)).
Proof.
  intros Hs Hu Hv. unfold fft_axis0.
  rewrite (shape_ncols a H W Hs) by lia.
  destruct Hs as [Hl _]. rewrite Hl.
  unfold get at 1. rewrite swapaxes_row by exact Hu.
  rewrite column_nth. unfold get at 1, fft_axis1.
  change (@nil C) with (fft []) at 1. rewrite (map_nth fft).
  rewrite swapaxes_row by exact Hv.
  rewrite fft_nth by (rewrite length_map; lia).
  rewrite length_map, Hl.
  apply Csum_ext. intros r _. now rewrite column_nth.
Qed.

Lemma fft_axis1_get (a : array2 C) (H W r v : nat) :
  shape a H W -> (r < H)%nat -> (v < W)%nat ->
  get Czero (fft_axis1 a) r v =
  Csum (map (fun c => Cmul (get Czero a r c) (twiddle W v c)) (seq 0 W)).
Proof.
  intros Hs Hr Hv. pose proof (shape_row a H W r Hs Hr) as Hlen.
  unfold get at 1, fft_axis1.
  change (@nil C) with (fft []) at 1. rewrite (map_nth fft).
  rewrite fft_nth by lia. now rewrite Hlen.
Qed.

Lemma fft2_shape (a : array2 R) (H W : nat) :
  shape a H W -> shape (fft2 a) H W.
Proof.
  intros Hs. unfold fft2.
  now apply fft_axis0_shape, fft_axis1_shape, shape_map2d.
Qed.

(** Entry [(u, v)] of [fft2], as the row transforms followed by the
    column transform. *)
Lemma fft2_get (a : array2 R) (H W u v : nat) :
  shape a H W -> (u < H)%nat -> (v < W)%nat ->
  get Czero (fft2 a) u v =
  Csum (map (fun r =>
    Cmul (Csum (map (fun c => Cmul (RtoC (get 0 a r c)) (twiddle W v c))
                    (seq 0 W)))
         (twiddle H u r))
    (seq 0 H)).
Proof.
  intros Hs Hu Hv. unfold fft2.
  pose proof (shape_map2d RtoC a H W Hs) as Hs1.
  rewrite (fft_axis0_get _ H W) by (try apply fft_axis1_shape; assumption).
  apply Csum_ext. intros r Hr. apply in_seq in Hr.
  rewrite (fft_axis1_get _ H W) by (assumption || lia).
  f_equal. apply Csum_ext. intros c Hc. apply in_seq in Hc.
  f_equal. apply get_map2d.
  - destruct Hs as [Hl _]. lia.
  - rewrite (shape_row a H W r Hs) by lia. lia.
Qed.

(** [fft2] agrees with the double sum of the specification. *)
Lemma fft2_reference (a : array2 R) (H W u v : nat) :
  shape a H W -> (u < H)%nat -> (v < W)%nat ->
  get Czero (fft2 a) u v = dft2_reference a u v.
Proof.
  intros Hs Hu Hv. rewrite (fft2_get a H W) by assumption.
  unfold dft2_reference.
  rewrite (shape_ncols a H W Hs) by lia.
  destruct Hs as [Hl _]. rewrite Hl.
  apply Csum_ext. intros r _. rewrite Csum_mul_r, map_map.
  apply Csum_ext. intros c _. rewrite Cmul_assoc. f_equal.
  unfold twiddle. rewrite <- Cexp_add. f_equal. unfold Rdiv. ring.
Qed.

(** A scaled array has the scaled transform. *)
Lemma fft_scale (k : R) (a : list C) :
  fft (map (Cscale k) a) = map (Cscale k) (fft a).
Proof.
  unfold fft. rewrite length_map, map_map. apply map_ext. intros u.
  rewrite <- Csum_scale, map_map. apply Csum_ext. intros m _.
  replace Czero with (Cscale k Czero) at 1 by (apply C_eq; simpl; ring).
  now rewrite (map_nth (Cscale k)), Cscale_mul_l.
Qed.

Lemma get_map2d_default {A B} (f : A -> B) (a : array2 A) (dA : A) (dB : B)
      (r c : nat) :
  f dA = dB -> get dB (map2d f a) r c = f (get dA a r c).
Proof.
  intros Hd. unfold get, map2d.
  change (@nil B) with (map f []). rewrite map_nth.
  rewrite <- Hd. apply map_nth.
Qed.

Lemma ncols_map2d {A B} (f : A -> B) (a : array2 A) :
  ncols (map2d f a) = ncols a.
Proof. destruct a; simpl; [reflexivity | apply length_map]. Qed.

Lemma swapaxes_map2d {A B} (f : A -> B) (dA : A) (dB : B) (W : nat)
      (a : array2 A) :
  f dA = dB -> swapaxes dB W (map2d f a) = map2d f (swapaxes dA W a).
Proof.
  intros Hd. unfold swapaxes, map2d. rewrite map_map.
  apply map_ext. intros c. rewrite !map_map. apply map_ext. intros row.
  rewrite <- Hd. apply map_nth.
Qed.

Lemma Cscale_C0 (k : R) : Cscale k Czero = Czero.
Proof. apply C_eq; simpl; ring. Qed.

Lemma fft_axis1_scale (k : R) (a : array2 C) :
  fft_axis1 (map2d (Cscale k) a) = map2d (Cscale k) (fft_axis1 a).
Proof.
  unfold fft_axis1, map2d. rewrite !map_map. apply map_ext. intros row.
  apply fft_scale.
Qed.

Lemma fft_axis0_scale (k : R) (a : array2 C) :
  fft_axis0 (map2d (Cscale k) a) = map2d (Cscale k) (fft_axis0 a).
Proof.
  unfold fft_axis0. rewrite ncols_map2d.
  unfold map2d at 1. rewrite length_map.
  rewrite (swapaxes_map2d (Cscale k) Czero Czero) by apply Cscale_C0.
  rewrite fft_axis1_scale.
  now rewrite (swapaxes_map2d (Cscale k) Czero Czero) by apply Cscale_C0.
Qed.

Lemma fft2_scale (k : R) (a : array2 R) :
  fft2 (scale2d k a) = map2d (Cscale k) (fft2 a).
Proof.
  unfold fft2, scale2d.
  replace (map2d RtoC (map2d (Rmult k) a))
    with (map2d (Cscale k) (map2d RtoC a)).
  - now rewrite fft_axis1_scale, fft_axis0_scale.
  - unfold map2d. rewrite !map_map. apply map_ext. intros row.
    rewrite !map_map. apply map_ext. intros x. apply C_eq; simpl; ring.
Qed.

(** The magnitudes of the transform of [k * a], shifted or not. *)
Lemma magnitude_scale (k : R) (a : array2 R) :
  np_abs (fft2 (scale2d k a)) = map2d (Rmult (Rabs k)) (np_abs (fft2 a)) /\
  np_abs (fftshift (fft2 (scale2d k a))) =
  map2d (Rmult (Rabs k)) (np_abs (fftshift (fft2 a))).
Proof.
  assert (E : forall b : array2 C,
             np_abs (map2d (Cscale k) b) = map2d (Rmult (Rabs k)) (np_abs b)).
  { intros b. unfold np_abs, map2d. rewrite !map_map. apply map_ext.
    intros row. rewrite !map_map. apply map_ext. intros z.
    apply Cmod_scale. }
  rewrite fft2_scale. split; [apply E|].
  rewrite fftshift_map2d. apply E.
Qed.

(** ** The zero-frequency term *)

Lemma twiddle_0 (n m : nat) : twiddle n 0 m = Cone.
Proof.
  unfold twiddle. simpl INR.
  replace (- (2 * PI * (INR m * 0 / INR n))) with 0
    by (unfold Rdiv; ring).
  apply Cexp_0.
Qed.

Lemma Rsum_zero (l : list R) : Forall (fun x => x = 0) l -> Rsum l = 0.
Proof.
  induction 1 as [|x l Hx _ IH]; simpl; [reflexivity|]. rewrite Hx, IH. ring.
Qed.

Lemma fft2_dc (a : array2 R) (H W : nat) :
  shape a H W -> get Czero (fft2 a) 0 0 = RtoC (sum2d a).
Proof.
  intros Hs.
  destruct (Nat.eq_dec H 0) as [-> | HH].
  { destruct Hs as [Hl _]. apply length_zero_iff_nil in Hl. now subst a. }
  destruct (Nat.eq_dec W 0) as [-> | HW].
  { pose proof (shape_row _ H 0 0 (fft2_shape a H 0 Hs)) as Hrow.
    unfold get. apply length_zero_iff_nil in Hrow; [|lia].
    rewrite Hrow. simpl. unfold sum2d. rewrite Rsum_zero; [reflexivity|].
    rewrite Forall_map. destruct Hs as [_ Hr].
    eapply Forall_impl; [|exact Hr]. intros row Hrow'. simpl in Hrow'.
    apply length_zero_iff_nil in Hrow'. now subst row. }
  rewrite (fft2_get a H W) by (assumption || lia).
  destruct Hs as [Hl Hr].
  assert (Ea : sum2d a = Rsum (map (fun r => Rsum (nth r a [])) (seq 0 H))).
  { unfold sum2d. rewrite <- Hl.
    rewrite <- (map_map (fun r => nth r a []) Rsum).
    now rewrite map_nth_seq. }
  rewrite Ea, <- Csum_RtoC, map_map.
  apply Csum_ext. intros r Hin. apply in_seq in Hin.
  rewrite twiddle_0, Cmul_1_r, <- Csum_RtoC.
  assert (Hlen : length (nth r a []) = W)
    by (rewrite Forall_nth in Hr; apply Hr; lia).
  assert (Er : map RtoC (nth r a []) =
               map (fun c => RtoC (get 0 a r c)) (seq 0 W)).
  { unfold get. rewrite <- Hlen.
    rewrite <- (map_map (fun c => nth c (nth r a []) 0) RtoC).
    now rewrite map_nth_seq. }
  rewrite Er. apply Csum_ext. intros c _. now rewrite twiddle_0, Cmul_1_r.
Qed.

(** ** A bound on the transform *)

Lemma Cmod_Csum (l : list C) : Cmod (Csum l) <= Rsum (map Cmod l).
Proof.
  induction l as [|z l IH]; simpl.
  - rewrite Cmod_0. lra.
  - eapply Rle_trans; [apply Cmod_triangle|]. lra.
Qed.

Lemma Rsum_seq_le (f : nat -> R) (b : R) (n : nat) :
  (forall i, (i < n)%nat -> f i <= b) ->
  Rsum (map f (seq 0 n)) <= INR n * b.
Proof.
  induction n as [|n IH]; intros Hf.
  - simpl. lra.
  - rewrite seq_S, map_app. simpl map.
    assert (E : forall l x, Rsum (l ++ [x]) = Rsum l + x).
    { induction l as [|y l IHl]; intros x; simpl; [ring|].
      rewrite IHl. ring. }
    rewrite E, S_INR. specialize (IH (fun i Hi => Hf i (Nat.lt_lt_succ_r _ _ Hi))).
    specialize (Hf n (Nat.lt_succ_diag_r n)). lra.
Qed.

(** When every sample is in [[-1, 1]], every entry of the transform is at
    most [H * W] in magnitude. *)
Lemma fft2_bound (a : array2 R) (H W u v : nat) :
  shape a H W -> (u < H)%nat -> (v < W)%nat ->
  (forall r c, (r < H)%nat -> (c < W)%nat -> Rabs (get 0 a r c) <= 1) ->
  Cmod (get Czero (fft2 a) u v) <= INR H * INR W.
Proof.
  intros Hs Hu Hv Hb. rewrite (fft2_reference a H W) by assumption.
  unfold dft2_reference.
  rewrite (shape_ncols a H W Hs) by lia.
  destruct Hs as [Hl _]. rewrite Hl.
  eapply Rle_trans; [apply Cmod_Csum|]. rewrite map_map.
  apply Rsum_seq_le. intros r Hr.
  eapply Rle_trans; [apply Cmod_Csum|]. rewrite map_map.
  replace (INR W) with (INR W * 1) by ring.
  apply Rsum_seq_le. intros c Hc.
  rewrite Cmul_RtoC, Cmod_scale, Cmod_Cexp, Rmult_1_r. now apply Hb.
Qed.

(** ** Normalisation *)

Lemma compute_array (raster : array2 Z) :
  cf_array (compute raster) = map2d (fun v => 1 - IZR v / 255) raster.
Proof.
  unfold compute, rsubtract, true_divide, asarray_float, map2d. simpl.
  rewrite !map_map. apply map_ext. intros row. now rewrite !map_map.
Qed.

Lemma compute_array_shape (raster : array2 Z) (H W : nat) :
  shape raster H W -> shape (cf_array (compute raster)) H W.
Proof. intros Hs. rewrite compute_array. now apply shape_map2d. Qed.

Lemma compute_spectrum_shape (raster : array2 Z) (H W : nat) :
  shape raster H W -> shape (cf_spectrum (compute raster)) H W.
Proof.
  intros Hs. change (cf_spectrum (compute raster))
    with (fftshift (fft2 (cf_array (compute raster)))).
  now apply fftshift_shape, fft2_shape, compute_array_shape.
Qed.

Lemma normalise_range (v : Z) :
  (0 <= v <= 255)%Z -> 0 <= 1 - IZR v / 255 <= 1.
Proof.
  intros [Hlo Hhi]. apply IZR_le in Hlo, Hhi. lra.
Qed.

Lemma compute_array_range (raster : array2 Z) :
  valid_raster raster ->
  Forall (Forall (fun x => 0 <= x <= 1)) (cf_array (compute raster)).
Proof.
  intros Hv. rewrite compute_array. unfold map2d. rewrite Forall_map.
  eapply Forall_impl; [|exact Hv]. intros row Hrow. simpl.
  rewrite Forall_map. eapply Forall_impl; [|exact Hrow].
  intros v. apply normalise_range.
Qed.

(** The same bounds in binary64: for each of the 256 byte values the
    rounded [1.0 - v / 255.0] is in [[0, 1]], exactly 1 for 0 and exactly 0
    for 255. *)
Lemma normalise_f64_range (v : Z) :
  (0 <= v <= 255)%Z -> in_unit_f64 (normalise_f64 v) = true.
Proof.
  intros Hv.
  assert (Hall : forallb (fun n => in_unit_f64 (normalise_f64 (Z.of_nat n)))
                         (seq 0 256) = true) by (vm_compute; reflexivity).
  rewrite forallb_forall in Hall.
  specialize (Hall (Z.to_nat v)). rewrite Z2Nat.id in Hall by lia.
  apply Hall, in_seq. lia.
Qed.

Lemma normalise_f64_ends :
  PrimFloat.eqb (normalise_f64 0) (f64_of_Z 1) = true /\
  PrimFloat.eqb (normalise_f64 255) (f64_of_Z 0) = true.
Proof. split; vm_compute; reflexivity. Qed.

(** ** When the transform raises *)

Lemma np_fft2_ok (a : array2 R) (H W : nat) :
  shape a H W -> (0 < H)%nat -> (0 < W)%nat -> np_fft2 a = Ok (fft2 a).
Proof.
  intros Hs HH HW. unfold np_fft2, np_fft_axis1, np_fft_axis0, fft2.
  rewrite ncols_map2d, (shape_ncols a H W Hs HH).
  destruct (Nat.ltb_spec W 1) as [Hlt | _]; [lia|]. cbn [bind].
  unfold fft_axis1, map2d. rewrite !length_map.
  destruct Hs as [-> _].
  destruct (Nat.ltb_spec H 1) as [Hlt | _]; [lia|]. reflexivity.
Qed.

Lemma np_fft2_raises (a : array2 R) (H W : nat) :
  shape a H W -> H = 0%nat \/ W = 0%nat -> np_fft2 a = ValueError.
Proof.
  intros Hs Hz. unfold np_fft2, np_fft_axis1.
  assert (E : ncols (map2d RtoC a) = 0%nat).
  { rewrite ncols_map2d. destruct a as [|row a']; [reflexivity|].
    destruct Hs as [Hl Hr]. simpl in Hl.
    destruct Hz as [-> | ->]; [discriminate|].
    now inversion Hr. }
  now rewrite E.
Qed.

(** [np.fft.fft] raises on the empty vector and on no other. *)
Lemma np_fft_cases (a : list C) :
  (a = [] -> np_fft a = ValueError) /\ (a <> [] -> np_fft a = Ok (fft a)).
Proof.
  unfold np_fft. destruct a as [|x a]; split; intros Ha;
    try reflexivity; congruence.
Qed.

(** On a raster with a row and a column [compute_fft] assigns all its
    locals; on an empty one [np.fft.fft2] raises. *)
Lemma compute_run_ok (raster : array2 Z) (H W : nat) :
  shape raster H W -> (0 < H)%nat -> (0 < W)%nat ->
  compute_run raster = Ok (compute raster).
Proof.
  intros Hs HH HW. unfold compute_run.
  rewrite (np_fft2_ok _ H W); [reflexivity | | assumption | assumption].
  unfold rsubtract, true_divide, asarray_float.
  now apply shape_map2d, shape_map2d, shape_map2d.
Qed.

Lemma compute_run_raises (raster : array2 Z) (H W : nat) :
  shape raster H W -> H = 0%nat \/ W = 0%nat ->
  compute_run raster = ValueError.
Proof.
  intros Hs Hz. unfold compute_run.
  rewrite (np_fft2_raises _ H W); [reflexivity | | assumption].
  unfold rsubtract, true_divide, asarray_float.
  now apply shape_map2d, shape_map2d, shape_map2d.
Qed.

Lemma lookup2_get {A} (a : array2 A) (H W r c : nat) (d : A) :
  shape a H W -> (r < H)%nat -> (c < W)%nat ->
  lookup2 a r c = Some (get d a r c).
Proof.
  intros Hs Hr Hc. pose proof (shape_row a H W r Hs Hr) as Hlen.
  destruct Hs as [Hl _]. unfold lookup2, get.
  rewrite (nth_error_nth' a []) by lia.
  apply nth_error_nth'. lia.
Qed.

(** ** The claims *)

(** C1. For every square raster of size N x N with N at least 1,
    [compute_fft] runs to the end and produces a normalised array and a
    log-magnitude array that both have N rows of N samples, the shape of
    the raster.  (On a raster of size 0 x 0 [np.fft.fft2] raises
    [ValueError]: [compute_run_raises].) *)
Theorem compute_preserves_shape (raster : array2 Z) (N : nat) :
  shape raster N N -> (0 < N)%nat ->
  compute_run raster = Ok (compute raster) /\
  shape (cf_array (compute raster)) N N /\
  shape (cf_log_magnitude (compute raster)) N N.
Proof.
  intros Hs HN. split; [now apply (compute_run_ok raster N N)|]. split.
  - now apply compute_array_shape.
  - change (cf_log_magnitude (compute raster))
      with (map2d log1p (map2d Cmod (cf_spectrum (compute raster)))).
    now apply shape_map2d, shape_map2d, compute_spectrum_shape.
Qed.

Lemma compute_preserves_shape_witness :
  shape [[0; 255]; [255; 0]]%Z 2 2 /\ (0 < 2)%nat /\
  compute_run [[0; 255]; [255; 0]]%Z = Ok (compute [[0; 255]; [255; 0]]%Z) /\
  shape (cf_array (compute [[0; 255]; [255; 0]]%Z)) 2 2 /\
  shape (cf_log_magnitude (compute [[0; 255]; [255; 0]]%Z)) 2 2.
Proof.
  assert (Hs : shape [[0; 255]; [255; 0]]%Z 2 2)
    by (split; [reflexivity | repeat constructor]).
  split; [exact Hs|]. split; [lia|].
  apply (compute_preserves_shape _ 2 Hs). lia.
Defined.

(** C2. The normalised sample at (r, c) is [1 - v / 255] for the raster
    sample [v] at (r, c): ink (0) becomes 1 and blank background (255)
    becomes 0. *)
Theorem normalised_sample (raster : array2 Z) (H W r c : nat) :
  shape raster H W -> (r < H)%nat -> (c < W)%nat ->
  get 0 (cf_array (compute raster)) r c
    = 1 - IZR (get 0%Z raster r c) / 255 /\
  (get 0%Z raster r c = 0%Z -> get 0 (cf_array (compute raster)) r c = 1) /\
  (get 0%Z raster r c = 255%Z -> get 0 (cf_array (compute raster)) r c = 0).
Proof.
  intros Hs Hr Hc.
  assert (E : get 0 (cf_array (compute raster)) r c
              = 1 - IZR (get 0%Z raster r c) / 255).
  { rewrite compute_array.
    apply (get_map2d (fun v => 1 - IZR v / 255) raster 0%Z 0).
    - destruct Hs as [Hl _]. lia.
    - rewrite (shape_row raster H W r Hs Hr). exact Hc. }
  split; [exact E|]. rewrite E.
  split; intros ->; lra.
Qed.

Lemma normalised_sample_witness :
  shape [[0; 255]; [255; 0]]%Z 2 2 /\ (0 < 2)%nat /\ (1 < 2)%nat /\
  get 0 (cf_array (compute [[0; 255]; [255; 0]]%Z)) 0 1
    = 1 - IZR (get 0%Z [[0; 255]; [255; 0]]%Z 0 1) / 255 /\
  (get 0%Z [[0; 255]; [255; 0]]%Z 0 1 = 0%Z ->
   get 0 (cf_array (compute [[0; 255]; [255; 0]]%Z)) 0 1 = 1) /\
  (get 0%Z [[0; 255]; [255; 0]]%Z 0 1 = 255%Z ->
   get 0 (cf_array (compute [[0; 255]; [255; 0]]%Z)) 0 1 = 0).
Proof.
  assert (Hs : shape [[0; 255]; [255; 0]]%Z 2 2)
    by (split; [reflexivity | repeat constructor]).
  split; [exact Hs|]. split; [lia|]. split; [lia|].
  apply (normalised_sample _ 2 2 0 1 Hs); lia.
Defined.

(** C3. The spectrum of [compute] is the 2D discrete Fourier transform of
    the normalised array as the specification defines it,
    [F[u,v] = sum_r sum_c a[r,c] exp(-2 pi i (u r / H + v c / W))]:
    [fft2] gives [F[u,v]] at every index (u, v), and the spectrum holds it
    at the shifted index. *)
Theorem spectrum_is_reference_dft (raster : array2 Z) (H W u v : nat) :
  shape raster H W -> (u < H)%nat -> (v < W)%nat ->
  get Czero (fft2 (cf_array (compute raster))) u v
    = dft2_reference (cf_array (compute raster)) u v /\
  get Czero (cf_spectrum (compute raster)) ((u + H / 2) mod H) ((v + W / 2) mod W)
    = dft2_reference (cf_array (compute raster)) u v.
Proof.
  intros Hs Hu Hv.
  pose proof (compute_array_shape raster H W Hs) as Ha.
  assert (E : get Czero (fft2 (cf_array (compute raster))) u v
              = dft2_reference (cf_array (compute raster)) u v)
    by now apply (fft2_reference _ H W).
  split; [exact E|]. rewrite <- E.
  change (cf_spectrum (compute raster))
    with (fftshift (fft2 (cf_array (compute raster)))).
  apply fftshift_get; try assumption. now apply fft2_shape.
Qed.

Lemma spectrum_is_reference_dft_witness :
  shape [[0; 255]; [255; 0]]%Z 2 2 /\ (1 < 2)%nat /\ (0 < 2)%nat /\
  get Czero (fft2 (cf_array (compute [[0; 255]; [255; 0]]%Z))) 1 0
    = dft2_reference (cf_array (compute [[0; 255]; [255; 0]]%Z)) 1 0 /\
  get Czero (cf_spectrum (compute [[0; 255]; [255; 0]]%Z))
      ((1 + 2 / 2) mod 2) ((0 + 2 / 2) mod 2)
    = dft2_reference (cf_array (compute [[0; 255]; [255; 0]]%Z)) 1 0.
Proof.
  assert (Hs : shape [[0; 255]; [255; 0]]%Z 2 2)
    by (split; [reflexivity | repeat constructor]).
  split; [exact Hs|]. split; [lia|]. split; [lia|].
  apply (spectrum_is_reference_dft _ 2 2 1 0 Hs); lia.
Defined.

(** C4. The centring shift of an H x W array moves the element at (r, c)
    to ((r + H/2) mod H, (c + W/2) mod W), with integer division; the
    element at (0, 0) lands at (H/2, W/2), the floor of half the size also
    when the size is odd. *)
Theorem fftshift_moves_to_centre {A} (a : array2 A) (H W r c : nat) (d : A) :
  shape a H W -> (r < H)%nat -> (c < W)%nat ->
  get d (fftshift a) ((r + H / 2) mod H) ((c + W / 2) mod W) = get d a r c /\
  get d (fftshift a) (H / 2) (W / 2) = get d a 0 0.
Proof.
  intros Hs Hr Hc. split.
  - now apply fftshift_get.
  - assert (HH : (H / 2 < H)%nat) by (apply Nat.div_lt; lia).
    assert (HW : (W / 2 < W)%nat) by (apply Nat.div_lt; lia).
    rewrite <- (fftshift_get a H W 0 0 d Hs) by lia.
    now rewrite !Nat.add_0_l, !Nat.mod_small by assumption.
Qed.

Lemma fftshift_moves_to_centre_witness :
  shape [[1; 2; 3]; [4; 5; 6]; [7; 8; 9]]%Z 3 3 /\
  (2 < 3)%nat /\ (0 < 3)%nat /\
  get 0%Z (fftshift [[1; 2; 3]; [4; 5; 6]; [7; 8; 9]]%Z) ((2 + 3 / 2) mod 3)
      ((0 + 3 / 2) mod 3)
    = get 0%Z [[1; 2; 3]; [4; 5; 6]; [7; 8; 9]]%Z 2 0 /\
  get 0%Z (fftshift [[1; 2; 3]; [4; 5; 6]; [7; 8; 9]]%Z) (3 / 2) (3 / 2)
    = get 0%Z [[1; 2; 3]; [4; 5; 6]; [7; 8; 9]]%Z 0 0.
Proof.
  assert (Hs : shape [[1; 2; 3]; [4; 5; 6]; [7; 8; 9]]%Z 3 3)
    by (split; [reflexivity | repeat constructor]).
  split; [exact Hs|]. split; [lia|]. split; [lia|].
  apply (fftshift_moves_to_centre _ 3 3 2 0 0%Z Hs); lia.
Defined.

Lemma log1p_nonneg (x : R) : 0 <= x -> 0 <= log1p x.
Proof.
  intros Hx. unfold log1p. rewrite <- ln_1.
  destruct Hx as [Hx | <-].
  - left. apply ln_increasing; lra.
  - right. f_equal. ring.
Qed.

Lemma log1p_le (x y : R) : 0 <= x -> x <= y -> log1p x <= log1p y.
Proof.
  intros Hx [Hlt | ->]; [|lra].
  unfold log1p. left. apply ln_increasing; lra.
Qed.

Lemma Forall2d_get {A} (P : A -> Prop) (a : array2 A) (H W r c : nat)
      (d : A) :
  shape a H W -> (r < H)%nat -> (c < W)%nat ->
  Forall (Forall P) a -> P (get d a r c).
Proof.
  intros Hs Hr Hc Ha. pose proof (shape_row a H W r Hs Hr) as Hlen.
  destruct Hs as [Hl _]. unfold get.
  rewrite Forall_nth in Ha. specialize (Ha r [] ltac:(lia)).
  rewrite Forall_nth in Ha. apply Ha. lia.
Qed.

Lemma get_Forall2d {A} (P : A -> Prop) (a : array2 A) (H W : nat) (d : A) :
  shape a H W ->
  (forall r c, (r < H)%nat -> (c < W)%nat -> P (get d a r c)) ->
  Forall (Forall P) a.
Proof.
  intros Hs Hp. apply Forall_nth. intros r d' Hr.
  destruct Hs as [Hl Hrows].
  rewrite (nth_indep _ d' []) by exact Hr.
  assert (Hlen : length (nth r a []) = W)
    by (rewrite Forall_nth in Hrows; now apply Hrows).
  apply Forall_nth. intros c d'' Hc.
  rewrite (nth_indep _ d'' d) by exact Hc.
  apply Hp; lia.
Qed.

Lemma fftshift_Forall2d {A} (P : A -> Prop) (a : array2 A) :
  Forall (Forall P) a -> Forall (Forall P) (fftshift a).
Proof.
  intros Ha. unfold fftshift. rewrite Forall_map. apply roll_Forall.
  eapply Forall_impl; [|exact Ha]. intros row. apply roll_Forall.
Qed.

(** Every entry of the spectrum of a valid raster is at most [H * W] in
    magnitude. *)
Lemma compute_spectrum_bound (raster : array2 Z) (H W r c : nat) :
  shape raster H W -> valid_raster raster -> (r < H)%nat -> (c < W)%nat ->
  Cmod (get Czero (cf_spectrum (compute raster)) r c) <= INR H * INR W.
Proof.
  intros Hs Hv Hr Hc.
  pose proof (compute_array_shape raster H W Hs) as Ha.
  apply (Forall2d_get (fun z => Cmod z <= INR H * INR W) _ H W);
    try assumption.
  - now apply compute_spectrum_shape.
  - change (cf_spectrum (compute raster))
      with (fftshift (fft2 (cf_array (compute raster)))).
    apply fftshift_Forall2d.
    apply (get_Forall2d _ _ H W Czero); [now apply fft2_shape|].
    intros u v Hu Hv'. apply fft2_bound; try assumption.
    intros r' c' Hr' Hc'.
    pose proof (Forall2d_get _ _ H W r' c' 0 Ha Hr' Hc'
                  (compute_array_range raster Hv)) as Hb.
    cbv beta in Hb. apply Rabs_le. lra.
Qed.

(** C5. Every entry of the log-magnitude array is [log1p] of the magnitude
    of the spectrum entry at the same index, [ln (1 + |spectrum[r,c]|)].
    It is not negative, and for a valid raster it is at most
    [ln (1 + H * W)]: a finite real. *)
Theorem log_magnitude_entry (raster : array2 Z) (H W r c : nat) :
  shape raster H W -> valid_raster raster -> (r < H)%nat -> (c < W)%nat ->
  get 0 (cf_log_magnitude (compute raster)) r c
    = ln (1 + Cmod (get Czero (cf_spectrum (compute raster)) r c)) /\
  0 <= get 0 (cf_log_magnitude (compute raster)) r c
    <= ln (1 + INR H * INR W).
Proof.
  intros Hs Hv Hr Hc.
  pose proof (compute_spectrum_shape raster H W Hs) as Hsp.
  assert (E : get 0 (cf_log_magnitude (compute raster)) r c
              = log1p (Cmod (get Czero (cf_spectrum (compute raster)) r c))).
  { change (cf_log_magnitude (compute raster))
      with (map2d log1p (map2d Cmod (cf_spectrum (compute raster)))).
    pose proof (shape_map2d Cmod _ H W Hsp) as Hm.
    rewrite (get_map2d log1p _ 0 0).
    - f_equal. apply get_map2d.
      + destruct Hsp as [Hl _]. lia.
      + rewrite (shape_row _ H W r Hsp Hr). exact Hc.
    - destruct Hm as [Hl _]. lia.
    - rewrite (shape_row _ H W r Hm Hr). exact Hc. }
  rewrite E. split; [reflexivity|]. split.
  - apply log1p_nonneg, Cmod_nonneg.
  - apply log1p_le; [apply Cmod_nonneg|].
    now apply compute_spectrum_bound.
Qed.

Lemma log_magnitude_entry_witness :
  shape [[0; 255]; [255; 0]]%Z 2 2 /\ valid_raster [[0; 255]; [255; 0]]%Z /\
  (1 < 2)%nat /\ (0 < 2)%nat /\
  get 0 (cf_log_magnitude (compute [[0; 255]; [255; 0]]%Z)) 1 0
    = ln (1 + Cmod (get Czero (cf_spectrum (compute [[0; 255]; [255; 0]]%Z)) 1 0))
  /\
  0 <= get 0 (cf_log_magnitude (compute [[0; 255]; [255; 0]]%Z)) 1 0
    <= ln (1 + INR 2 * INR 2).
Proof.
  assert (Hs : shape [[0; 255]; [255; 0]]%Z 2 2)
    by (split; [reflexivity | repeat constructor]).
  assert (Hv : valid_raster [[0; 255]; [255; 0]]%Z)
    by (repeat constructor; lia).
  split; [exact Hs|]. split; [exact Hv|]. split; [lia|]. split; [lia|].
  apply (log_magnitude_entry _ 2 2 1 0 Hs Hv); lia.
Defined.

Lemma map2d_repeat {A B} (f : A -> B) (x : A) (H W : nat) :
  map2d f (repeat (repeat x W) H) = repeat (repeat (f x) W) H.
Proof. unfold map2d. now rewrite !map_repeat. Qed.

(** C6. For a valid raster (every sample in 0..255) every normalised value
    lies in [0, 1]; the all-white raster (every sample 255) gives the
    all-zero normalised array. *)
Theorem normalised_in_unit_interval (raster : array2 Z) (H W : nat) :
  valid_raster raster ->
  Forall (Forall (fun x => 0 <= x <= 1)) (cf_array (compute raster)) /\
  cf_array (compute (repeat (repeat 255%Z W) H)) = repeat (repeat 0 W) H.
Proof.
  intros Hv. split.
  - now apply compute_array_range.
  - rewrite compute_array, map2d_repeat. do 2 f_equal. lra.
Qed.

Lemma normalised_in_unit_interval_witness :
  valid_raster [[0; 255]; [37; 200]]%Z /\
  Forall (Forall (fun x => 0 <= x <= 1))
         (cf_array (compute [[0; 255]; [37; 200]]%Z)) /\
  cf_array (compute (repeat (repeat 255%Z 2) 2)) = repeat (repeat 0 2) 2.
Proof.
  assert (Hv : valid_raster [[0; 255]; [37; 200]]%Z)
    by (repeat constructor; lia).
  split; [exact Hv | apply (normalised_in_unit_interval _ 2 2 Hv)].
Defined.

(** C7. For an N x N raster with N at least 1, [compute_fft] runs to the
    end, the zero-frequency coefficient of the 2D transform of the
    normalised array, its entry (0, 0), is the sum of all normalised
    samples, and the spectrum (the transform after the centring shift) has
    that coefficient as its entry at index (N/2, N/2), with integer
    division. *)
Theorem dc_term_at_centre (raster : array2 Z) (N : nat) :
  shape raster N N -> (0 < N)%nat ->
  compute_run raster = Ok (compute raster) /\
  lookup2 (fft2 (cf_array (compute raster))) 0 0
    = Some (RtoC (sum2d (cf_array (compute raster)))) /\
  lookup2 (cf_spectrum (compute raster)) (N / 2) (N / 2)
    = Some (RtoC (sum2d (cf_array (compute raster)))).
Proof.
  intros Hs HN. pose proof (compute_array_shape raster N N Hs) as Ha.
  pose proof (fft2_shape _ N N Ha) as Hf.
  assert (HH : (N / 2 < N)%nat) by (apply Nat.div_lt; lia).
  split; [now apply (compute_run_ok raster N N)|]. split.
  - rewrite (lookup2_get _ N N 0 0 Czero Hf) by lia.
    now rewrite (fft2_dc _ N N Ha).
  - rewrite (lookup2_get _ N N _ _ Czero (compute_spectrum_shape raster N N Hs))
      by assumption.
    change (cf_spectrum (compute raster))
      with (fftshift (fft2 (cf_array (compute raster)))).
    rewrite <- (fft2_dc _ N N Ha). f_equal.
    rewrite <- (fftshift_get _ N N 0 0 Czero Hf) by lia.
    now rewrite !Nat.add_0_l, !Nat.mod_small by assumption.
Qed.

Lemma dc_term_at_centre_witness :
  shape [[0; 255; 255]; [255; 0; 255]; [255; 255; 0]]%Z 3 3 /\ (0 < 3)%nat /\
  compute_run [[0; 255; 255]; [255; 0; 255]; [255; 255; 0]]%Z
    = Ok (compute [[0; 255; 255]; [255; 0; 255]; [255; 255; 0]]%Z) /\
  lookup2 (fft2 (cf_array
            (compute [[0; 255; 255]; [255; 0; 255]; [255; 255; 0]]%Z))) 0 0
    = Some (RtoC (sum2d (cf_array
            (compute [[0; 255; 255]; [255; 0; 255]; [255; 255; 0]]%Z)))) /\
  lookup2 (cf_spectrum
            (compute [[0; 255; 255]; [255; 0; 255]; [255; 255; 0]]%Z))
      (3 / 2) (3 / 2)
    = Some (RtoC (sum2d (cf_array
            (compute [[0; 255; 255]; [255; 0; 255]; [255; 255; 0]]%Z)))).
Proof.
  assert (Hs : shape [[0; 255; 255]; [255; 0; 255]; [255; 255; 0]]%Z 3 3)
    by (split; [reflexivity | repeat constructor]).
  split; [exact Hs|]. split; [lia|].
  apply (dc_term_at_centre _ 3 Hs). lia.
Defined.

(** C8, as the specification states it, fails for a negative constant:
    the magnitude of the transform of [-1 * [[1]]] is not [-1] times the
    magnitude of the transform of [[[1]]]. *)
Lemma scale_by_constant_counterexample :
  Cmod (get Czero (fft2 (scale2d (-1) [[1]])) 0 0)
    <> -1 * Cmod (get Czero (fft2 [[1]]) 0 0).
Proof.
  assert (Hs : shape [[1]] 1 1) by (split; [reflexivity | repeat constructor]).
  rewrite (fft2_dc [[1]] 1 1 Hs), Cmod_RtoC.
  unfold sum2d. simpl Rsum.
  replace (1 + 0 + 0) with 1 by ring. rewrite Rabs_R1.
  pose proof (Cmod_nonneg (get Czero (fft2 (scale2d (-1) [[1]])) 0 0)).
  lra.
Qed.

(** C8, amended. Scaling every sample of an array by a constant [k] scales
    every magnitude of its transform, before and after the centring shift,
    by the absolute value of [k] (by [k] itself when [k] is not negative). *)
Theorem scale_by_constant (a : array2 R) (k : R) (u v : nat) :
  Cmod (get Czero (fft2 (scale2d k a)) u v)
    = Rabs k * Cmod (get Czero (fft2 a) u v) /\
  get 0 (np_abs (fftshift (fft2 (scale2d k a)))) u v
    = Rabs k * get 0 (np_abs (fftshift (fft2 a))) u v.
Proof.
  split.
  - rewrite fft2_scale.
    rewrite (get_map2d_default (Cscale k) (fft2 a) Czero Czero)
      by apply Cscale_C0.
    apply Cmod_scale.
  - destruct (magnitude_scale k a) as [_ ->].
    apply (get_map2d_default (Rmult (Rabs k)) _ 0 0). ring.
Qed.

(** ** The stroke buffer *)

Lemma handle_size (p : pointer) (self : app) :
  size (snd (handle p self)) = size self.
Proof.
  destruct p as [ev | ev | ev]; simpl; try reflexivity.
  unfold _draw. now destruct (last_pos self).
Qed.

Lemma handle_all_size (ps : list pointer) (self : app) :
  size (handle_all ps self) = size self.
Proof.
  revert self. induction ps as [|p ps IH]; intros self; simpl.
  - reflexivity.
  - now rewrite IH, handle_size.
Qed.

Lemma handle_all_app (ps qs : list pointer) (self : app) :
  handle_all (ps ++ qs) self = handle_all qs (handle_all ps self).
Proof.
  revert self. induction ps as [|p ps IH]; intros self; simpl.
  - reflexivity.
  - apply IH.
Qed.

(** Every line request of the handlers has fill 0 and width 4. *)
Lemma handle_requests (p : pointer) (self : app) :
  Forall pen_request (line_requests (image self)) ->
  Forall pen_request (line_requests (image (snd (handle p self)))).
Proof.
  intros Hreq. destruct p as [ev | ev | ev]; simpl; try exact Hreq.
  unfold _draw. destruct (last_pos self); simpl; [|exact Hreq].
  apply Forall_app. split; [exact Hreq|].
  constructor; [split; reflexivity | constructor].
Qed.

Lemma handle_all_requests (ps : list pointer) (self : app) :
  Forall pen_request (line_requests (image self)) ->
  Forall pen_request (line_requests (image (handle_all ps self))).
Proof.
  revert self. induction ps as [|p ps IH]; intros self Hreq; simpl.
  - exact Hreq.
  - now apply IH, handle_requests.
Qed.

(** C9. After any sequence of pointer events, from any state of the
    application, [clear] returns nothing and leaves a backing image of the
    same size whose every sample is 255, with an empty canvas and no
    pending stroke; [compute_fft] then shows an all-zero drawing. *)
Theorem clear_resets_raster
        (rasterise : array2 Z -> list point -> Z -> Z -> array2 Z)
        (ps : list pointer) (self : app) :
  fst (clear (handle_all ps self)) = tt /\
  samples rasterise (image (snd (clear (handle_all ps self))))
    = repeat (repeat 255%Z (size self)) (size self) /\
  size (snd (clear (handle_all ps self))) = size self /\
  canvas (snd (clear (handle_all ps self))) = [] /\
  last_pos (snd (clear (handle_all ps self))) = None /\
  cf_array (compute_fft rasterise (snd (clear (handle_all ps self))))
    = repeat (repeat 0 (size self)) (size self).
Proof.
  assert (Him : image (snd (clear (handle_all ps self)))
                = Image_new (size self) (size self) 255).
  { unfold clear, _create_drawing_buffer. simpl.
    now rewrite handle_all_size. }
  split; [reflexivity|]. split; [now rewrite Him|].
  split; [apply handle_all_size|]. split; [reflexivity|].
  split; [reflexivity|].
  unfold compute_fft. rewrite Him. cbn [samples].
  rewrite compute_array, map2d_repeat. do 2 f_equal. lra.
Qed.

(** C10, as the specification states it, fails: the stroke width is not a
    parameter of the drawing operation.  A drag from (0, 0) to (0, 0) makes
    one line request of width 4, and no sequence of pointer events ever
    makes a request of width 1. *)
Lemma stroke_width_counterexample :
  line_requests
    (image (handle_all [ButtonPress (mkEvent 0 0); Motion (mkEvent 0 0)]
                       (init 4)))
    = [([(0, 0); (0, 0)], 0, 4)]%Z /\
  forall (ps : list pointer) (xy : list point) (fill : Z),
    ~ In (xy, fill, 1%Z) (line_requests (image (handle_all ps (init 4)))).
Proof.
  split; [reflexivity|]. intros ps xy fill Hin.
  pose proof (handle_all_requests ps (init 4) (Forall_nil _)) as Hreq.
  rewrite Forall_forall in Hreq. destruct (Hreq _ Hin) as [_ Hw].
  discriminate Hw.
Qed.

(** *** Pillow's point on a grid of samples *)

Lemma set_nth_length {A} (n : nat) (x : A) (l : list A) :
  length (set_nth n x l) = length l.
Proof.
  revert n. induction l as [|y l IH]; intros [|n]; simpl; auto.
Qed.

Lemma nth_set_nth {A} (n i : nat) (x d : A) (l : list A) :
  nth i (set_nth n x l) d
  = if ((i =? n)%nat && (n <? length l)%nat)%bool then x else nth i l d.
Proof.
  revert n i. induction l as [|y l IH]; intros n i.
  - assert (E : (n <? 0)%nat = false) by (apply Nat.ltb_ge; lia).
    cbn [length]. rewrite E, Bool.andb_false_r. now destruct n.
  - destruct n as [|n], i as [|i]; simpl; try reflexivity.
    rewrite IH. reflexivity.
Qed.

Lemma put_pixel_shape (a : array2 Z) (p : point) (ink : Z) (H W : nat) :
  shape a H W -> shape (put_pixel a p ink) H W.
Proof.
  intros Hs. unfold put_pixel.
  destruct (_ && _ && _ && _)%bool eqn:E; [|exact Hs].
  destruct Hs as [Hl Hr]. split.
  - now rewrite set_nth_length.
  - apply Forall_nth. intros i d Hi. rewrite set_nth_length in Hi.
    rewrite nth_set_nth.
    rewrite Forall_nth in Hr.
    destruct ((i =? Z.to_nat (snd p))%nat && _)%bool eqn:Ei.
    + rewrite set_nth_length. apply Bool.andb_true_iff in Ei.
      destruct Ei as [_ Ei]. apply Nat.ltb_lt in Ei. now apply Hr.
    + now apply Hr.
Qed.

(** Inside the image, [put_pixel] changes the sample at column [x] of row
    [y] and no other. *)
Lemma put_pixel_get (a : array2 Z) (x y r c : nat) (ink d : Z) (H W : nat) :
  shape a H W -> (x < W)%nat -> (y < H)%nat ->
  get d (put_pixel a (Z.of_nat x, Z.of_nat y) ink) r c
  = if ((r =? y)%nat && (c =? x)%nat)%bool then ink else get d a r c.
Proof.
  intros Hs Hx Hy. unfold put_pixel. cbn [fst snd].
  rewrite (shape_ncols a H W Hs) by lia.
  pose proof (shape_row a H W y Hs Hy) as Hlen.
  destruct Hs as [Hl _]. rewrite Hl, !Nat2Z.id.
  assert (E : ((0 <=? Z.of_nat x)%Z && (Z.of_nat x <? Z.of_nat W)%Z
               && (0 <=? Z.of_nat y)%Z && (Z.of_nat y <? Z.of_nat H)%Z)%bool
              = true).
  { rewrite !Bool.andb_true_iff. repeat split.
    - apply Z.leb_le. lia.
    - apply Z.ltb_lt. lia.
    - apply Z.leb_le. lia.
    - apply Z.ltb_lt. lia. }
  rewrite E. unfold get. rewrite nth_set_nth, Hl.
  assert (Ey : (y <? H)%nat = true) by (apply Nat.ltb_lt; lia).
  rewrite Ey, Bool.andb_true_r.
  destruct (Nat.eqb_spec r y) as [-> | Hne]; [|reflexivity].
  rewrite nth_set_nth, Hlen.
  assert (Ex : (x <? W)%nat = true) by (apply Nat.ltb_lt; lia).
  rewrite Ex, Bool.andb_true_r. reflexivity.
Qed.

Lemma handle_pen (p : pointer) (self : app) :
  pen_image (size self) (image self) ->
  pen_image (size self) (image (snd (handle p self))).
Proof.
  intros Hp. destruct p as [ev | ev | ev]; simpl; try exact Hp.
  unfold _draw. destruct (last_pos self); simpl; [|exact Hp]. tauto.
Qed.

Lemma handle_all_pen (ps : list pointer) (self : app) :
  pen_image (size self) (image self) ->
  pen_image (size self) (image (handle_all ps self)).
Proof.
  revert self. induction ps as [|p ps IH]; intros self Hp; [exact Hp|].
  cbn [handle_all]. rewrite <- (handle_size p self). apply IH.
  rewrite handle_size. now apply handle_pen.
Qed.

Lemma samples_shape
      (rasterise : array2 Z -> list point -> Z -> Z -> array2 Z)
      (n : nat) (im : pil_image) :
  keeps_shape rasterise -> pen_image n im ->
  shape (samples rasterise im) n n.
Proof.
  intros Hk. induction im as [w h c | im IH xy f w]; simpl.
  - intros (-> & -> & ->). split.
    + apply repeat_length.
    + apply Forall_forall. intros row Hrow. apply repeat_spec in Hrow.
      subst row. apply repeat_length.
  - intros (-> & -> & Hp). now apply Hk, IH.
Qed.

(** C10, amended. The drawing handler takes the pointer position only:
    the stroke width is the constant 4 of the code, not a parameter.  A
    drag from (0, 0) to (0, 0), after any pointer events on an image of
    size at least 1, makes one line request from (0, 0) to (0, 0) with
    fill 0 and width 4, mirrored on the canvas, and sets exactly one
    sample of the raster, the one at (0, 0), to black (0), leaving every
    other sample unchanged and the raster of the same size; this for a
    graphics library that draws in place and draws a segment of length
    zero as its single point, as Pillow does. *)
Theorem draw_point_request
        (rasterise : array2 Z -> list point -> Z -> Z -> array2 Z)
        (ps : list pointer) (n : nat) :
  keeps_shape rasterise -> point_for_empty_segment rasterise ->
  (0 < n)%nat ->
  image (handle_all (ps ++ [ButtonPress (mkEvent 0 0); Motion (mkEvent 0 0)])
                    (init n))
    = Draw_line (image (handle_all ps (init n))) [(0, 0); (0, 0)]%Z 0 4 /\
  canvas (handle_all (ps ++ [ButtonPress (mkEvent 0 0); Motion (mkEvent 0 0)])
                     (init n))
    = canvas (handle_all ps (init n))
      ++ [mkCanvasLine (0, 0)%Z (0, 0)%Z "black" 4] /\
  Forall pen_request
    (line_requests
       (image (handle_all
                 (ps ++ [ButtonPress (mkEvent 0 0); Motion (mkEvent 0 0)])
                 (init n)))) /\
  shape (samples rasterise
           (image (handle_all
                     (ps ++ [ButtonPress (mkEvent 0 0); Motion (mkEvent 0 0)])
                     (init n)))) n n /\
  get 0%Z (samples rasterise
             (image (handle_all
                       (ps ++ [ButtonPress (mkEvent 0 0);
                               Motion (mkEvent 0 0)])
                       (init n)))) 0 0 = 0%Z /\
  forall r c : nat,
    r <> 0%nat \/ c <> 0%nat ->
    get 0%Z (samples rasterise
               (image (handle_all
                         (ps ++ [ButtonPress (mkEvent 0 0);
                                 Motion (mkEvent 0 0)])
                         (init n)))) r c
    = get 0%Z (samples rasterise (image (handle_all ps (init n)))) r c.
Proof.
  intros Hk Hpt Hn.
  assert (Him : image (handle_all
                  (ps ++ [ButtonPress (mkEvent 0 0); Motion (mkEvent 0 0)])
                  (init n))
                = Draw_line (image (handle_all ps (init n)))
                            [(0, 0); (0, 0)]%Z 0 4)
    by now rewrite handle_all_app.
  pose proof (handle_all_pen ps (init n)
                (conj eq_refl (conj eq_refl eq_refl))) as Hpen.
  change (size (init n)) with n in Hpen.
  pose proof (samples_shape rasterise n _ Hk Hpen) as Hs.
  split; [exact Him|].
  split; [now rewrite handle_all_app|].
  split; [apply handle_all_requests; constructor|].
  rewrite Him. cbn [samples]. rewrite Hpt.
  split; [now apply put_pixel_shape|].
  split.
  - exact (put_pixel_get _ 0 0 0 0 0%Z 0%Z n n Hs Hn Hn).
  - intros r c Hrc.
    pose proof (put_pixel_get _ 0 0 r c 0%Z 0%Z n n Hs Hn Hn) as E.
    change (Z.of_nat 0) with 0%Z in E. rewrite E.
    destruct r as [|r]; [|reflexivity].
    destruct c as [|c]; [|reflexivity].
    destruct Hrc as [Hr | Hc]; [now elim Hr | now elim Hc].
Qed.

Lemma paint_first_point_keeps_shape : keeps_shape paint_first_point.
Proof.
  intros a xy H W Hs. destruct xy as [|p xy]; [exact Hs|].
  now apply put_pixel_shape.
Qed.

Lemma draw_point_request_witness :
  keeps_shape paint_first_point /\
  point_for_empty_segment paint_first_point /\ (0 < 2)%nat /\
  get 0%Z (samples paint_first_point
             (image (handle_all
                       ([] ++ [ButtonPress (mkEvent 0 0);
                               Motion (mkEvent 0 0)])
                       (init 2)))) 0 0 = 0%Z.
Proof.
  assert (Hpt : point_for_empty_segment paint_first_point)
    by (intros a p; reflexivity).
  split; [exact paint_first_point_keeps_shape|]. split; [exact Hpt|].
  split; [lia|].
  apply (draw_point_request paint_first_point [] 2
           paint_first_point_keeps_shape Hpt).
  lia.
Defined.

(** * Further properties of the application *)

(** ** Strokes *)

Lemma step_size (c : command) (self : app) : size (step c self) = size self.
Proof.
  destruct c as [p | |]; simpl; try reflexivity. apply handle_size.
Qed.

Lemma run_commands_size (cs : list command) (self : app) :
  size (run_commands cs self) = size self.
Proof.
  revert self. induction cs as [|c cs IH]; intros self; simpl.
  - reflexivity.
  - now rewrite IH, step_size.
Qed.

Lemma run_commands_app (cs ds : list command) (self : app) :
  run_commands (cs ++ ds) self = run_commands ds (run_commands cs self).
Proof.
  revert self. induction cs as [|c cs IH]; intros self; simpl.
  - reflexivity.
  - apply IH.
Qed.

Lemma clear_is_init (self : app) : snd (clear self) = init (size self).
Proof. reflexivity. Qed.

Lemma draw_pending (self : app) (p0 q : point) :
  last_pos self = Some p0 ->
  snd (_draw (event_at q) self)
    = mkApp (size self)
            (canvas self ++ [mkCanvasLine p0 q "black" 4])
            (Draw_line (image self) [p0; q] 0 4)
            (Some q).
Proof. intros Hlast. unfold _draw. rewrite Hlast. now destruct q. Qed.

Lemma last_cons_default {A} (ps : list A) (q d : A) :
  last (q :: ps) d = last ps q.
Proof.
  revert q d. induction ps as [|p ps IH]; intros q d; [reflexivity|].
  change (last (q :: p :: ps) d) with (last (p :: ps) d).
  now rewrite (IH p d), (IH p q).
Qed.

Lemma motions_requests (ps : list point) (p0 : point) (self : app) :
  last_pos self = Some p0 ->
  line_requests
    (image (handle_all (map (fun p => Motion (event_at p)) ps) self))
    = line_requests (image self) ++ segments p0 ps /\
  last_pos (handle_all (map (fun p => Motion (event_at p)) ps) self)
    = Some (last ps p0).
Proof.
  revert p0 self. induction ps as [|q ps IH]; intros p0 self Hlast.
  - simpl. now rewrite app_nil_r.
  - cbn [map handle_all handle]. rewrite (draw_pending self p0 q Hlast).
    rewrite last_cons_default.
    destruct (IH q (mkApp (size self)
                      (canvas self ++ [mkCanvasLine p0 q "black" 4])
                      (Draw_line (image self) [p0; q] 0 4)
                      (Some q)) eq_refl) as [IHr IHl].
    split; [|exact IHl].
    rewrite IHr. cbn [image line_requests segments].
    now rewrite <- app_assoc.
Qed.

(** X1. A stroke is a polyline: a button press at [p0] followed by motions
    through [p1 ... pk] adds exactly the pen requests [p0-p1], [p1-p2],
    ..., each starting where the one before ended, and the stroke stays
    pending at the last point. *)
Theorem stroke_is_polyline (self : app) (p0 : point) (ps : list point) :
  line_requests
    (image (handle_all (ButtonPress (event_at p0)
                          :: map (fun p => Motion (event_at p)) ps) self))
    = line_requests (image self) ++ segments p0 ps /\
  last_pos (handle_all (ButtonPress (event_at p0)
                          :: map (fun p => Motion (event_at p)) ps) self)
    = Some (last ps p0).
Proof.
  cbn [handle_all handle].
  apply (motions_requests ps p0 (snd (_start_draw (event_at p0) self))).
  destruct p0. reflexivity.
Qed.

(** X2. Strokes do not join across a release: after a button release the
    first motion only records its position, leaving image and canvas as
    they were, and the motions that follow draw the polyline that starts
    at that first motion point, whatever was pending before. *)
Theorem release_breaks_stroke (self : app) (e : event) (p : point)
        (ps : list point) :
  image (handle_all [ButtonRelease e; Motion (event_at p)] self)
    = image self /\
  canvas (handle_all [ButtonRelease e; Motion (event_at p)] self)
    = canvas self /\
  line_requests
    (image (handle_all (ButtonRelease e
                          :: map (fun q => Motion (event_at q)) (p :: ps))
                       self))
    = line_requests (image self) ++ segments p ps.
Proof.
  split; [reflexivity|]. split; [reflexivity|].
  cbn [map handle_all handle].
  set (st := snd (_draw (event_at p) (snd (_end_draw e self)))).
  assert (Hlast : last_pos st = Some p) by (destruct p; reflexivity).
  destruct (motions_requests ps p st Hlast) as [-> _].
  reflexivity.
Qed.

Lemma handle_mirrors (p : pointer) (self : app) :
  Forall2 mirrors (canvas self) (line_requests (image self)) ->
  Forall2 mirrors (canvas (snd (handle p self)))
          (line_requests (image (snd (handle p self)))).
Proof.
  intros Hm. destruct p as [ev | ev | ev]; simpl; try exact Hm.
  unfold _draw. destruct (last_pos self) as [last|]; simpl; [|exact Hm].
  apply Forall2_app; [exact Hm|].
  constructor; [|constructor]. split; reflexivity.
Qed.

(** X3. The canvas mirrors the backing image: after any commands on a new
    application, the canvas items and the line requests of the image are
    the same segments in the same order, every item black and of the width
    of its request. *)
Theorem canvas_mirrors_image (cs : list command) (n : nat) :
  Forall2 mirrors (canvas (run_commands cs (init n)))
          (line_requests (image (run_commands cs (init n)))).
Proof.
  assert (Hgen : forall self,
             Forall2 mirrors (canvas self) (line_requests (image self)) ->
             Forall2 mirrors (canvas (run_commands cs self))
                     (line_requests (image (run_commands cs self)))).
  { induction cs as [|c cs IH]; intros self Hm; simpl; [exact Hm|].
    apply IH. destruct c as [p | |]; simpl.
    - now apply handle_mirrors.
    - constructor.
    - exact Hm. }
  apply Hgen. constructor.
Qed.

(** X4. [clear] forgets the history: commands before a "Clear Canvas" have
    no effect on what follows it; the application continues as a new one of
    the same size. *)
Theorem clear_forgets_history (cs ds : list command) (n : nat) :
  run_commands (cs ++ ClearCanvas :: ds) (init n) = run_commands ds (init n).
Proof.
  rewrite run_commands_app. cbn [run_commands step].
  now rewrite clear_is_init, run_commands_size.
Qed.

Lemma handle_all_motions (ps : list pointer) (self : app) :
  (length (line_requests (image (handle_all ps self)))
   <= length (line_requests (image self)) + motions ps)%nat.
Proof.
  revert self. induction ps as [|p ps IH]; intros self.
  - simpl. lia.
  - cbn [handle_all]. specialize (IH (snd (handle p self))).
    destruct p as [ev | ev | ev]; cbn [motions]; simpl in IH |- *;
      try lia.
    unfold _draw in IH |- *. destruct (last_pos self); simpl in IH |- *.
    + rewrite length_app in IH. simpl in IH. lia.
    + lia.
Qed.

(** X5. Only a drag draws: the pointer events of a new application make at
    most one line request per motion event, so presses and releases alone
    leave the image as it was created. *)
Theorem requests_bounded_by_motions (ps : list pointer) (n : nat) :
  (length (line_requests (image (handle_all ps (init n)))) <= motions ps)%nat
  /\
  (motions ps = 0%nat ->
   image (handle_all ps (init n)) = Image_new n n 255).
Proof.
  pose proof (handle_all_motions ps (init n)) as Hb. simpl in Hb.
  split; [exact Hb|]. intros H0. rewrite H0 in Hb.
  assert (Hpen : forall self,
             pen_image (size self) (image self) ->
             pen_image (size self) (image (handle_all ps self))).
  { clear. induction ps as [|p ps IH]; intros self Hp; [exact Hp|].
    cbn [handle_all]. rewrite <- (handle_size p self). apply IH.
    rewrite handle_size.
    destruct p as [ev | ev | ev]; simpl; try exact Hp.
    unfold _draw. destruct (last_pos self); simpl; [|exact Hp]. tauto. }
  specialize (Hpen (init n) (conj eq_refl (conj eq_refl eq_refl))).
  destruct (image (handle_all ps (init n))) as [w h c | im xy f w].
  - simpl in Hpen. destruct Hpen as (-> & -> & ->). reflexivity.
  - simpl in Hb. rewrite length_app in Hb. simpl in Hb. lia.
Qed.

Lemma requests_bounded_by_motions_witness :
  motions [ButtonPress (mkEvent 3 4); ButtonRelease (mkEvent 3 4)] = 0%nat /\
  image (handle_all [ButtonPress (mkEvent 3 4); ButtonRelease (mkEvent 3 4)]
                    (init 8))
    = Image_new 8 8 255.
Proof.
  split; [reflexivity|].
  apply (requests_bounded_by_motions
           [ButtonPress (mkEvent 3 4); ButtonRelease (mkEvent 3 4)] 8).
  reflexivity.
Defined.

(** ** The image that [compute_fft] reads *)

Lemma run_commands_pen (cs : list command) (self : app) :
  pen_image (size self) (image self) ->
  pen_image (size self) (image (run_commands cs self)).
Proof.
  revert self. induction cs as [|c cs IH]; intros self Hp; [exact Hp|].
  cbn [run_commands]. rewrite <- (step_size c self). apply IH.
  rewrite step_size. destruct c as [p | |]; simpl.
  - now apply handle_pen.
  - repeat split.
  - exact Hp.
Qed.

Lemma valid_repeat (v : Z) (H W : nat) :
  (0 <= v <= 255)%Z -> valid_raster (repeat (repeat v W) H).
Proof.
  intros Hv. apply Forall_forall. intros row Hrow.
  apply repeat_spec in Hrow. subst row.
  apply Forall_forall. intros x Hx. apply repeat_spec in Hx. now subst x.
Qed.

Section PenRaster.

Variable rasterise : array2 Z -> list point -> Z -> Z -> array2 Z.

(** Pillow draws in place: a pen request keeps the dimensions of the image
    and leaves every sample a byte. *)
Hypothesis rasterise_shape : forall a xy H W,
  shape a H W -> shape (rasterise a xy 0%Z 4%Z) H W.
Hypothesis rasterise_valid : forall a xy,
  valid_raster a -> valid_raster (rasterise a xy 0%Z 4%Z).

Lemma samples_pen (n : nat) (im : pil_image) :
  pen_image n im ->
  shape (samples rasterise im) n n /\ valid_raster (samples rasterise im).
Proof.
  induction im as [w h c | im IH xy f w]; simpl.
  - intros (-> & -> & ->). split.
    + split.
      * apply repeat_length.
      * apply Forall_forall. intros row Hrow. apply repeat_spec in Hrow.
        subst row. apply repeat_length.
    + apply valid_repeat. lia.
  - intros (-> & -> & Hp). destruct (IH Hp) as [Hs Hv]. split.
    + now apply rasterise_shape.
    + now apply rasterise_valid.
Qed.

(** X6. Whatever the user did before on an application of size at least
    1, [compute_fft] reads an image of [size] x [size] bytes, runs to the
    end and shows two [size] x [size] arrays, the first with every value in
    [0, 1], provided the rasteriser keeps the dimensions of the image and
    writes bytes. *)
Theorem compute_fft_reachable (cs : list command) (n : nat) :
  (0 < n)%nat ->
  shape (samples rasterise (image (run_commands cs (init n)))) n n /\
  valid_raster (samples rasterise (image (run_commands cs (init n)))) /\
  compute_fft_run rasterise (run_commands cs (init n))
    = Ok (compute_fft rasterise (run_commands cs (init n))) /\
  shape (cf_array (compute_fft rasterise (run_commands cs (init n)))) n n /\
  shape (cf_log_magnitude
           (compute_fft rasterise (run_commands cs (init n)))) n n /\
  Forall (Forall (fun x => 0 <= x <= 1))
         (cf_array (compute_fft rasterise (run_commands cs (init n)))).
Proof.
  intros Hn.
  pose proof (run_commands_pen cs (init n)
                (conj eq_refl (conj eq_refl eq_refl))) as Hp.
  change (size (init n)) with n in Hp.
  destruct (samples_pen n _ Hp) as [Hs Hv].
  split; [exact Hs|]. split; [exact Hv|].
  unfold compute_fft_run, compute_fft.
  split; [now apply (compute_run_ok _ n n)|].
  split; [now apply compute_array_shape|].
  split; [|now apply compute_array_range].
  change (cf_log_magnitude (compute ?r))
    with (map2d log1p (map2d Cmod (cf_spectrum (compute r)))).
  now apply shape_map2d, shape_map2d, compute_spectrum_shape.
Qed.

End PenRaster.

Lemma compute_fft_reachable_witness :
  (forall (a : array2 Z) (xy : list point) (H W : nat),
      shape a H W -> shape (map2d (fun _ : Z => 0%Z) a) H W) /\
  (forall (a : array2 Z) (xy : list point),
      valid_raster a -> valid_raster (map2d (fun _ : Z => 0%Z) a)) /\
  (0 < 2)%nat /\
  compute_fft_run (fun a _ fill _ => map2d (fun _ => fill) a)
    (run_commands
       [Pointer (ButtonPress (mkEvent 0 0));
        Pointer (Motion (mkEvent 1 1)); ComputeFFT]
       (init 2))
  = Ok (compute_fft (fun a _ fill _ => map2d (fun _ => fill) a)
          (run_commands
             [Pointer (ButtonPress (mkEvent 0 0));
              Pointer (Motion (mkEvent 1 1)); ComputeFFT]
             (init 2))).
Proof.
  assert (Hs : forall (a : array2 Z) (xy : list point) (H W : nat),
             shape a H W -> shape (map2d (fun _ : Z => 0%Z) a) H W)
    by (intros a xy H W; apply shape_map2d).
  assert (Hv : forall (a : array2 Z) (xy : list point),
             valid_raster a -> valid_raster (map2d (fun _ : Z => 0%Z) a)).
  { intros a xy Ha. unfold valid_raster, map2d. rewrite Forall_map.
    eapply Forall_impl; [|exact Ha]. intros row _. simpl.
    rewrite Forall_map. apply Forall_forall. intros x _. simpl. lia. }
  split; [intros a xy; apply (Hs a xy)|]. split; [exact Hv|].
  split; [lia|].
  apply (compute_fft_reachable
           (fun a _ fill _ => map2d (fun _ => fill) a) Hs Hv
           [Pointer (ButtonPress (mkEvent 0 0));
            Pointer (Motion (mkEvent 1 1)); ComputeFFT] 2).
  lia.
Defined.

(** ** The spectrum of a blank image *)

Lemma map2d_const {A B} (c : B) (a : array2 A) (H W : nat) :
  shape a H W -> map2d (fun _ => c) a = repeat (repeat c W) H.
Proof.
  intros [Hl Hr]. subst H. unfold map2d.
  induction a as [|row a IH]; [reflexivity|].
  inversion Hr as [|? ? Hrow Hrest]; subst. simpl.
  now rewrite IH, map_const.
Qed.

Lemma fft2_zero (H W : nat) :
  fft2 (repeat (repeat 0 W) H) = repeat (repeat Czero W) H.
Proof.
  set (z := repeat (repeat 0 W) H).
  assert (Hs : shape z H W).
  { split; [apply repeat_length|].
    apply Forall_forall. intros row Hrow. apply repeat_spec in Hrow.
    subst row. apply repeat_length. }
  assert (Ez : z = scale2d 0 z).
  { unfold z, scale2d. rewrite map2d_repeat. do 2 f_equal. ring. }
  rewrite Ez, fft2_scale.
  rewrite <- (map2d_const Czero (fft2 z) H W) by now apply fft2_shape.
  unfold map2d. apply map_ext. intros row. apply map_ext. intros x.
  apply C_eq; simpl; ring.
Qed.

Lemma fftshift_repeat {A} (c : A) (H W : nat) :
  fftshift (repeat (repeat c W) H) = repeat (repeat c W) H.
Proof.
  assert (Hs : shape (repeat (repeat c W) H) H W).
  { split; [apply repeat_length|].
    apply Forall_forall. intros row Hrow. apply repeat_spec in Hrow.
    subst row. apply repeat_length. }
  rewrite <- (map2d_const c (repeat (repeat c W) H) H W Hs) at 1.
  rewrite fftshift_map2d. apply map2d_const. now apply fftshift_shape.
Qed.

Lemma log1p_0 : log1p 0 = 0.
Proof. unfold log1p. rewrite Rplus_0_r. apply ln_1. Qed.

(** X7. A blank image has a blank spectrum: for the all-white raster of
    any size with a row and a column, [compute_fft] runs to the end, the
    spectrum is zero everywhere and so is the log-magnitude that is shown;
    this is what [compute_fft] shows right after [clear] on an application
    of size at least 1, whatever was drawn before. *)
Theorem blank_spectrum
        (rasterise : array2 Z -> list point -> Z -> Z -> array2 Z)
        (cs : list command) (self : app) (H W : nat) :
  (0 < H)%nat -> (0 < W)%nat -> (0 < size self)%nat ->
  compute_run (repeat (repeat 255%Z W) H)
    = Ok (compute (repeat (repeat 255%Z W) H)) /\
  cf_spectrum (compute (repeat (repeat 255%Z W) H))
    = repeat (repeat Czero W) H /\
  cf_log_magnitude (compute (repeat (repeat 255%Z W) H))
    = repeat (repeat 0 W) H /\
  compute_fft_run rasterise (snd (clear (run_commands cs self)))
    = Ok (compute_fft rasterise (snd (clear (run_commands cs self)))) /\
  cf_log_magnitude
    (compute_fft rasterise (snd (clear (run_commands cs self))))
    = repeat (repeat 0 (size self)) (size self).
Proof.
  intros HH HW Hsize.
  assert (Hsh : forall h w, shape (repeat (repeat 255%Z w) h) h w).
  { intros h w. split; [apply repeat_length|].
    apply Forall_forall. intros row Hrow. apply repeat_spec in Hrow.
    subst row. apply repeat_length. }
  assert (Ea : forall h w, cf_array (compute (repeat (repeat 255%Z w) h))
                           = repeat (repeat 0 w) h).
  { intros h w. rewrite compute_array, map2d_repeat. do 2 f_equal. lra. }
  assert (Es : forall h w, cf_spectrum (compute (repeat (repeat 255%Z w) h))
                           = repeat (repeat Czero w) h).
  { intros h w.
    change (cf_spectrum (compute ?r))
      with (fftshift (fft2 (cf_array (compute r)))).
    now rewrite Ea, fft2_zero, fftshift_repeat. }
  assert (El : forall h w,
             cf_log_magnitude (compute (repeat (repeat 255%Z w) h))
             = repeat (repeat 0 w) h).
  { intros h w.
    change (cf_log_magnitude (compute ?r))
      with (map2d log1p (map2d Cmod (cf_spectrum (compute r)))).
    rewrite Es, !map2d_repeat, Cmod_0, log1p_0. reflexivity. }
  split; [now apply (compute_run_ok _ H W)|].
  split; [apply Es|]. split; [apply El|].
  unfold compute_fft_run, compute_fft.
  rewrite clear_is_init, run_commands_size. cbn [init image snd
    _create_drawing_buffer size samples].
  split; [now apply (compute_run_ok _ (size self) (size self))|].
  apply El.
Qed.

Lemma blank_spectrum_witness :
  (0 < 2)%nat /\ (0 < 3)%nat /\ (0 < size (init 4))%nat /\
  compute_run (repeat (repeat 255%Z 3) 2)
    = Ok (compute (repeat (repeat 255%Z 3) 2)) /\
  cf_spectrum (compute (repeat (repeat 255%Z 3) 2))
    = repeat (repeat Czero 3) 2 /\
  cf_log_magnitude (compute (repeat (repeat 255%Z 3) 2))
    = repeat (repeat 0 3) 2 /\
  compute_fft_run paint_first_point
    (snd (clear (run_commands
                   [Pointer (ButtonPress (mkEvent 0 0));
                    Pointer (Motion (mkEvent 1 1))] (init 4))))
    = Ok (compute_fft paint_first_point
            (snd (clear (run_commands
                           [Pointer (ButtonPress (mkEvent 0 0));
                            Pointer (Motion (mkEvent 1 1))] (init 4))))) /\
  cf_log_magnitude
    (compute_fft paint_first_point
       (snd (clear (run_commands
                      [Pointer (ButtonPress (mkEvent 0 0));
                       Pointer (Motion (mkEvent 1 1))] (init 4)))))
    = repeat (repeat 0 (size (init 4))) (size (init 4)).
Proof.
  assert (H2 : (0 < 2)%nat) by lia.
  assert (H3 : (0 < 3)%nat) by lia.
  assert (H4 : (0 < size (init 4))%nat) by (simpl; lia).
  split; [exact H2|]. split; [exact H3|]. split; [exact H4|].
  exact (blank_spectrum paint_first_point
           [Pointer (ButtonPress (mkEvent 0 0));
            Pointer (Motion (mkEvent 1 1))] (init 4) 2 3 H2 H3 H4).
Defined.

(** ** The zero-frequency term is the largest *)

Lemma Rsum_map_le {A} (f g : A -> R) (l : list A) :
  (forall x, In x l -> f x <= g x) -> Rsum (map f l) <= Rsum (map g l).
Proof.
  induction l as [|x l IH]; intros Hfg; simpl; [lra|].
  pose proof (Hfg x (or_introl eq_refl)).
  assert (Rsum (map f l) <= Rsum (map g l))
    by (apply IH; intros y Hy; apply Hfg; now right).
  lra.
Qed.

Lemma sum2d_get (a : array2 R) (H W : nat) :
  shape a H W ->
  sum2d a
  = Rsum (map (fun r => Rsum (map (fun c => get 0 a r c) (seq 0 W)))
              (seq 0 H)).
Proof.
  intros [Hl Hr]. unfold sum2d. subst H.
  rewrite <- (map_nth_seq a []) at 1. rewrite map_map.
  f_equal. apply map_ext_in. intros r Hin. apply in_seq in Hin.
  assert (Hlen : length (nth r a []) = W)
    by (rewrite Forall_nth in Hr; apply Hr; lia).
  rewrite <- (map_nth_seq (nth r a []) 0) at 1. now rewrite Hlen.
Qed.

(** For samples that are not negative, no entry of the transform exceeds
    the sum of the samples in magnitude. *)
Lemma fft2_le_sum (a : array2 R) (H W u v : nat) :
  shape a H W -> (u < H)%nat -> (v < W)%nat ->
  Forall (Forall (fun x => 0 <= x)) a ->
  Cmod (get Czero (fft2 a) u v) <= sum2d a.
Proof.
  intros Hs Hu Hv Hpos. rewrite (fft2_reference a H W) by assumption.
  rewrite (sum2d_get a H W Hs). unfold dft2_reference.
  rewrite (shape_ncols a H W Hs) by lia.
  pose proof Hs as [Hl _]. rewrite Hl.
  eapply Rle_trans; [apply Cmod_Csum|]. rewrite map_map.
  apply Rsum_map_le. intros r Hr. apply in_seq in Hr.
  eapply Rle_trans; [apply Cmod_Csum|]. rewrite map_map.
  apply Rsum_map_le. intros c Hc. apply in_seq in Hc.
  rewrite Cmul_RtoC, Cmod_scale, Cmod_Cexp, Rmult_1_r.
  rewrite Rabs_pos_eq; [lra|].
  apply (Forall2d_get (fun x => 0 <= x) a H W r c 0 Hs); (lia || assumption).
Qed.

Lemma fftshift_centre {A} (a : array2 A) (H W : nat) (d : A) :
  shape a H W -> (0 < H)%nat -> (0 < W)%nat ->
  get d (fftshift a) (H / 2) (W / 2) = get d a 0 0.
Proof.
  intros Hs HH HW.
  assert (H2 : (H / 2 < H)%nat) by (apply Nat.div_lt; lia).
  assert (W2 : (W / 2 < W)%nat) by (apply Nat.div_lt; lia).
  rewrite <- (fftshift_get a H W 0 0 d Hs) by lia.
  now rewrite !Nat.add_0_l, !Nat.mod_small by assumption.
Qed.

Lemma compute_magnitude_get (raster : array2 Z) (H W r c : nat) :
  shape raster H W -> (r < H)%nat -> (c < W)%nat ->
  get 0 (cf_magnitude (compute raster)) r c
    = Cmod (get Czero (cf_spectrum (compute raster)) r c) /\
  get 0 (cf_log_magnitude (compute raster)) r c
    = log1p (get 0 (cf_magnitude (compute raster)) r c).
Proof.
  intros Hs Hr Hc.
  pose proof (compute_spectrum_shape raster H W Hs) as Hsp.
  pose proof (shape_map2d Cmod _ H W Hsp) as Hm.
  split.
  - change (cf_magnitude (compute raster))
      with (map2d Cmod (cf_spectrum (compute raster))).
    apply get_map2d.
    + destruct Hsp as [Hl _]. lia.
    + rewrite (shape_row _ H W r Hsp Hr). exact Hc.
  - change (cf_log_magnitude (compute raster))
      with (map2d log1p (cf_magnitude (compute raster))).
    change (cf_magnitude (compute raster))
      with (map2d Cmod (cf_spectrum (compute raster))).
    apply (get_map2d log1p _ 0 0).
    + destruct Hm as [Hl _]. lia.
    + rewrite (shape_row _ H W r Hm Hr). exact Hc.
Qed.

(** X8. The centre of the spectrum is its brightest point: for a valid
    raster the magnitude at (H/2, W/2) is the sum of the normalised
    samples, and no entry of the magnitude or of the log-magnitude that
    is shown exceeds the entry at the centre. *)
Theorem centre_is_brightest (raster : array2 Z) (H W r c : nat) :
  shape raster H W -> valid_raster raster -> (r < H)%nat -> (c < W)%nat ->
  get 0 (cf_magnitude (compute raster)) (H / 2) (W / 2)
    = sum2d (cf_array (compute raster)) /\
  get 0 (cf_magnitude (compute raster)) r c
    <= get 0 (cf_magnitude (compute raster)) (H / 2) (W / 2) /\
  get 0 (cf_log_magnitude (compute raster)) r c
    <= get 0 (cf_log_magnitude (compute raster)) (H / 2) (W / 2).
Proof.
  intros Hs Hv Hr Hc.
  pose proof (compute_array_shape raster H W Hs) as Ha.
  assert (Hpos : Forall (Forall (fun x => 0 <= x))
                        (cf_array (compute raster))).
  { eapply Forall_impl; [|exact (compute_array_range raster Hv)].
    intros row Hrow. eapply Forall_impl; [|exact Hrow].
    intros x Hx. simpl in Hx. lra. }
  assert (H2 : (H / 2 < H)%nat) by (apply Nat.div_lt; lia).
  assert (W2 : (W / 2 < W)%nat) by (apply Nat.div_lt; lia).
  assert (Hall : Forall (Forall (fun z =>
                   Cmod z <= sum2d (cf_array (compute raster))))
                   (cf_spectrum (compute raster))).
  { change (cf_spectrum (compute raster))
      with (fftshift (fft2 (cf_array (compute raster)))).
    apply fftshift_Forall2d.
    apply (get_Forall2d _ _ H W Czero); [now apply fft2_shape|].
    intros u v Hu Hv'. now apply (fft2_le_sum _ H W). }
  pose proof (Forall2d_get _ _ H W r c Czero
                (compute_spectrum_shape raster H W Hs) Hr Hc Hall) as Hrc.
  cbv beta in Hrc.
  assert (Ec : get 0 (cf_magnitude (compute raster)) (H / 2) (W / 2)
               = sum2d (cf_array (compute raster))).
  { destruct (compute_magnitude_get raster H W (H / 2) (W / 2) Hs H2 W2)
      as [-> _].
    change (cf_spectrum (compute raster))
      with (fftshift (fft2 (cf_array (compute raster)))).
    rewrite (fftshift_centre _ H W Czero (fft2_shape _ H W Ha)) by lia.
    rewrite (fft2_dc _ H W Ha), Cmod_RtoC. apply Rabs_pos_eq.
    eapply Rle_trans; [apply Cmod_nonneg | exact Hrc]. }
  destruct (compute_magnitude_get raster H W r c Hs Hr Hc) as [Em El].
  destruct (compute_magnitude_get raster H W (H / 2) (W / 2) Hs H2 W2)
    as [_ El2].
  split; [exact Ec|]. split.
  - rewrite Ec, Em. exact Hrc.
  - rewrite El, El2. apply log1p_le.
    + rewrite Em. apply Cmod_nonneg.
    + rewrite Ec, Em. exact Hrc.
Qed.

Lemma centre_is_brightest_witness :
  shape [[0; 255]; [255; 0]]%Z 2 2 /\ valid_raster [[0; 255]; [255; 0]]%Z /\
  (1 < 2)%nat /\ (0 < 2)%nat /\
  get 0 (cf_log_magnitude (compute [[0; 255]; [255; 0]]%Z)) 1 0
    <= get 0 (cf_log_magnitude (compute [[0; 255]; [255; 0]]%Z))
         (2 / 2) (2 / 2).
Proof.
  assert (Hs : shape [[0; 255]; [255; 0]]%Z 2 2)
    by (split; [reflexivity | repeat constructor]).
  assert (Hv : valid_raster [[0; 255]; [255; 0]]%Z)
    by (repeat constructor; lia).
  split; [exact Hs|]. split; [exact Hv|]. split; [lia|]. split; [lia|].
  apply (centre_is_brightest _ 2 2 1 0 Hs Hv); lia.
Defined.

(** ** The spectrum of a real image is symmetric *)

Lemma Cconj_Csum (l : list C) : Cconj (Csum l) = Csum (map Cconj l).
Proof.
  induction l as [|z l IH]; simpl.
  - apply C_eq; simpl; ring.
  - rewrite <- IH. apply C_eq; simpl; ring.
Qed.

Lemma Cmod_Cconj (z : C) : Cmod (Cconj z) = Cmod z.
Proof. unfold Cmod. simpl. f_equal. ring. Qed.

Lemma Cconj_mul_RtoC (x : R) (z : C) :
  Cconj (Cmul (RtoC x) z) = Cmul (RtoC x) (Cconj z).
Proof. apply C_eq; simpl; ring. Qed.

Lemma Cconj_Cexp (t : R) : Cconj (Cexp t) = Cexp (- t).
Proof. unfold Cconj, Cexp. simpl. now rewrite cos_neg, sin_neg. Qed.

Lemma Cexp_period (x : R) (k : nat) : Cexp (x + 2 * INR k * PI) = Cexp x.
Proof. unfold Cexp. now rewrite cos_period, sin_period. Qed.

Lemma negate_index_lt (n u : nat) :
  (u < n)%nat -> (negate_index n u < n)%nat.
Proof. intros Hu. apply Nat.mod_upper_bound. lia. Qed.

Lemma negate_index_INR (n u : nat) :
  (u < n)%nat ->
  exists k : nat, INR (negate_index n u) = INR k * INR n - INR u.
Proof.
  intros Hu. unfold negate_index. destruct u as [|u].
  - exists 0%nat. rewrite Nat.sub_0_r, Nat.Div0.mod_same.
    change (INR 0) with 0. ring.
  - exists 1%nat. rewrite Nat.mod_small by lia.
    rewrite minus_INR by lia. change (INR 1) with 1. ring.
Qed.

(** The transform of a real array at the negated frequency is the
    conjugate of the transform. *)
Lemma fft2_conj (a : array2 R) (H W u v : nat) :
  shape a H W -> (u < H)%nat -> (v < W)%nat ->
  get Czero (fft2 a) (negate_index H u) (negate_index W v)
    = Cconj (get Czero (fft2 a) u v).
Proof.
  intros Hs Hu Hv.
  rewrite (fft2_reference a H W) by (auto using negate_index_lt).
  rewrite (fft2_reference a H W) by assumption.
  unfold dft2_reference.
  rewrite (shape_ncols a H W Hs) by lia.
  destruct Hs as [Hl _]. rewrite Hl.
  destruct (negate_index_INR H u Hu) as [ku Eu].
  destruct (negate_index_INR W v Hv) as [kv Ev].
  assert (HH : INR H <> 0) by (apply not_0_INR; lia).
  assert (HW : INR W <> 0) by (apply not_0_INR; lia).
  rewrite Cconj_Csum, map_map. apply Csum_ext. intros r _.
  rewrite Cconj_Csum, map_map. apply Csum_ext. intros c _.
  rewrite Cconj_mul_RtoC, Cconj_Cexp. f_equal.
  rewrite Eu, Ev.
  rewrite <- (Cexp_period _ (ku * r + kv * c)).
  f_equal. rewrite plus_INR, !mult_INR. field. split; assumption.
Qed.

(** X9. The spectrum of a drawing is point-symmetric: the transform at the
    negated frequency ((H - u) mod H, (W - v) mod W) is the complex
    conjugate of the transform at (u, v), so the log-magnitude shown has
    equal values at the shifted places of the two frequencies. *)
Theorem spectrum_is_symmetric (raster : array2 Z) (H W u v : nat) :
  shape raster H W -> (u < H)%nat -> (v < W)%nat ->
  get Czero (fft2 (cf_array (compute raster)))
      (negate_index H u) (negate_index W v)
    = Cconj (get Czero (fft2 (cf_array (compute raster))) u v) /\
  get 0 (cf_log_magnitude (compute raster))
      (shifted_index H (negate_index H u))
      (shifted_index W (negate_index W v))
    = get 0 (cf_log_magnitude (compute raster))
          (shifted_index H u) (shifted_index W v).
Proof.
  intros Hs Hu Hv.
  pose proof (compute_array_shape raster H W Hs) as Ha.
  pose proof (fft2_shape _ H W Ha) as Hf.
  pose proof (negate_index_lt H u Hu) as Hnu.
  pose proof (negate_index_lt W v Hv) as Hnv.
  assert (E : get Czero (fft2 (cf_array (compute raster)))
                  (negate_index H u) (negate_index W v)
              = Cconj (get Czero (fft2 (cf_array (compute raster))) u v))
    by now apply fft2_conj.
  split; [exact E|].
  assert (Hsh : forall n i, (i < n)%nat -> (shifted_index n i < n)%nat)
    by (intros n i Hi; apply Nat.mod_upper_bound; lia).
  destruct (compute_magnitude_get raster H W _ _ Hs
              (Hsh H _ Hnu) (Hsh W _ Hnv)) as [Em1 ->].
  destruct (compute_magnitude_get raster H W _ _ Hs
              (Hsh H _ Hu) (Hsh W _ Hv)) as [Em2 ->].
  rewrite Em1, Em2. f_equal.
  change (cf_spectrum (compute raster))
    with (fftshift (fft2 (cf_array (compute raster)))).
  unfold shifted_index.
  rewrite !(fftshift_get _ H W) by assumption.
  now rewrite E, Cmod_Cconj.
Qed.

Lemma spectrum_is_symmetric_witness :
  shape [[0; 255; 255]; [255; 0; 255]; [255; 255; 255]]%Z 3 3 /\
  (1 < 3)%nat /\ (2 < 3)%nat /\
  get 0 (cf_log_magnitude
           (compute [[0; 255; 255]; [255; 0; 255]; [255; 255; 255]]%Z))
      (shifted_index 3 (negate_index 3 1))
      (shifted_index 3 (negate_index 3 2))
    = get 0 (cf_log_magnitude
               (compute [[0; 255; 255]; [255; 0; 255]; [255; 255; 255]]%Z))
          (shifted_index 3 1) (shifted_index 3 2).
Proof.
  assert (Hs : shape [[0; 255; 255]; [255; 0; 255]; [255; 255; 255]]%Z 3 3)
    by (split; [reflexivity | repeat constructor]).
  split; [exact Hs|]. split; [lia|]. split; [lia|].
  apply (spectrum_is_symmetric _ 3 3 1 2 Hs); lia.
Defined.

(** ** The zero-frequency term counts the ink *)

Lemma normalise_row_ink (row : list Z) :
  Forall (fun v => v = 0%Z \/ v = 255%Z) row ->
  Rsum (map (fun v => 1 - IZR v / 255) row)
    = INR (length (filter (Z.eqb 0) row)).
Proof.
  induction 1 as [|v row Hv _ IH]; [reflexivity|].
  cbn [map Rsum fold_right filter]. fold (Rsum (map (fun v => 1 - IZR v / 255) row)).
  rewrite IH. destruct Hv as [-> | ->]; cbn [Z.eqb length].
  - rewrite S_INR. lra.
  - lra.
Qed.

Lemma normalise_ink (raster : array2 Z) :
  two_level raster ->
  sum2d (cf_array (compute raster)) = INR (ink_count raster).
Proof.
  intros Ht. rewrite compute_array. unfold sum2d, map2d, ink_count.
  induction Ht as [|row raster Hrow _ IH]; [reflexivity|].
  cbn [map Rsum fold_right list_sum].
  fold (Rsum (map Rsum (map (map (fun v => 1 - IZR v / 255)) raster))).
  rewrite IH, plus_INR, normalise_row_ink by exact Hrow. reflexivity.
Qed.

(** X10. For a raster of ink (0) and blank (255) samples only, the sum of
    the normalised samples is the number of ink samples, and the centre of
    the spectrum holds exactly that count. *)
Theorem centre_counts_ink (raster : array2 Z) (H W : nat) :
  two_level raster -> shape raster H W -> (0 < H)%nat -> (0 < W)%nat ->
  sum2d (cf_array (compute raster)) = INR (ink_count raster) /\
  get Czero (cf_spectrum (compute raster)) (H / 2) (W / 2)
    = RtoC (INR (ink_count raster)).
Proof.
  intros Ht Hs HH HW.
  pose proof (compute_array_shape raster H W Hs) as Ha.
  split; [now apply normalise_ink|].
  change (cf_spectrum (compute raster))
    with (fftshift (fft2 (cf_array (compute raster)))).
  rewrite (fftshift_centre _ H W Czero (fft2_shape _ H W Ha)) by lia.
  now rewrite (fft2_dc _ H W Ha), normalise_ink.
Qed.

Lemma centre_counts_ink_witness :
  two_level [[0; 255; 0]; [255; 0; 255]]%Z /\
  shape [[0; 255; 0]; [255; 0; 255]]%Z 2 3 /\ (0 < 2)%nat /\ (0 < 3)%nat /\
  sum2d (cf_array (compute [[0; 255; 0]; [255; 0; 255]]%Z))
    = INR (ink_count [[0; 255; 0]; [255; 0; 255]]%Z) /\
  get Czero (cf_spectrum (compute [[0; 255; 0]; [255; 0; 255]]%Z))
      (2 / 2) (3 / 2)
    = RtoC (INR (ink_count [[0; 255; 0]; [255; 0; 255]]%Z)).
Proof.
  assert (Ht : two_level [[0; 255; 0]; [255; 0; 255]]%Z)
    by (repeat constructor; auto).
  assert (Hs : shape [[0; 255; 0]; [255; 0; 255]]%Z 2 3)
    by (split; [reflexivity | repeat constructor]).
  split; [exact Ht|]. split; [exact Hs|]. split; [lia|]. split; [lia|].
  apply (centre_counts_ink _ 2 3 Ht Hs); lia.
Defined.

(** ** Shifting twice *)

Lemma roll_half_twice {A} (a : list A) (k : nat) :
  length a = (2 * k)%nat -> roll (roll a k) k = a.
Proof.
  intros Hlen. destruct (Nat.eq_dec k 0) as [-> | Hk].
  - destruct a; [reflexivity | discriminate].
  - destruct a as [|x a'] eqn:Ea; [simpl in Hlen; lia|].
    rewrite <- Ea in *. clear Ea.
    apply (nth_ext _ _ x x).
    + now rewrite !roll_length.
    + intros j Hj. rewrite !roll_length in Hj.
      set (i1 := ((j + k) mod length a)%nat).
      assert (Hi1 : (i1 < length a)%nat)
        by (apply Nat.mod_upper_bound; lia).
      assert (Ej : ((i1 + k) mod length a)%nat = j).
      { unfold i1. rewrite Nat.Div0.add_mod_idemp_l.
        replace (j + k + k)%nat with (j + 1 * length a)%nat by lia.
        rewrite Nat.Div0.mod_add. apply Nat.mod_small. exact Hj. }
      pose proof (roll_nth (roll a k) k i1 x) as R1.
      rewrite roll_length in R1. specialize (R1 Hi1).
      rewrite Ej in R1. rewrite R1. unfold i1. now apply roll_nth.
Qed.

(** X11. For even dimensions, as the 256 x 256 of [main], the centring
    shift is its own inverse: shifting a shifted array gives the array
    back. *)
Theorem fftshift_twice {A} (a : array2 A) (H W : nat) :
  shape a H W -> (H mod 2 = 0)%nat -> (W mod 2 = 0)%nat ->
  fftshift (fftshift a) = a.
Proof.
  intros Hs HH HW.
  destruct (Nat.eq_dec H 0) as [-> | Hpos].
  { destruct Hs as [Hl _]. apply length_zero_iff_nil in Hl. now subst a. }
  assert (EH : H = (2 * (H / 2))%nat)
    by (pose proof (Nat.div_mod_eq H 2); lia).
  assert (EW : W = (2 * (W / 2))%nat)
    by (pose proof (Nat.div_mod_eq W 2); lia).
  pose proof (fftshift_shape a H W Hs) as Hs'.
  unfold fftshift at 1.
  rewrite (shape_ncols _ H W Hs') by lia.
  destruct Hs' as [Hl' _]. rewrite Hl'.
  unfold fftshift.
  rewrite (shape_ncols _ H W Hs) by lia.
  destruct Hs as [Hl Hrows]. rewrite Hl.
  rewrite roll_map, map_map, roll_half_twice by lia.
  rewrite <- (map_id a) at 2. apply map_ext_in. intros row Hin.
  rewrite Forall_forall in Hrows. specialize (Hrows row Hin).
  apply roll_half_twice. lia.
Qed.

Lemma fftshift_twice_witness :
  shape [[1; 2; 3; 4]; [5; 6; 7; 8]]%Z 2 4 /\
  (2 mod 2 = 0)%nat /\ (4 mod 2 = 0)%nat /\
  fftshift (fftshift [[1; 2; 3; 4]; [5; 6; 7; 8]]%Z)
    = [[1; 2; 3; 4]; [5; 6; 7; 8]]%Z.
Proof.
  assert (Hs : shape [[1; 2; 3; 4]; [5; 6; 7; 8]]%Z 2 4)
    by (split; [reflexivity | repeat constructor]).
  split; [exact Hs|]. split; [reflexivity|]. split; [reflexivity|].
  apply (fftshift_twice _ 2 4 Hs); reflexivity.
Defined.
